(** * IfcClash: a shallow embedding of [src/ifcclash/ifcclash.py]

    The development follows the Python source function by function.
    Python exceptions are an explicit [result] monad, Python [float]s are
    binary64 primitive floats, dictionaries that are only looked up and
    inserted into are [gmap]s, the insertion-ordered [clashes] dictionary is
    an association list, and the IFC entity graph is a store of entities
    addressed by instance id so that shared (aliased) placements are shared
    in the model as well.  The external libraries (ifcopenshell, the
    collision library, json's float and string encoders) appear as the
    fields of the [Collaborators] class. *)

From Stdlib Require Import Floats ZArith List Lia Bool Ascii.
From stdpp Require Import gmap strings list fin_maps.

(** Decimal literals such as [0.01] denote the nearest binary64 value, as
    they do in Python. *)
#[local] Set Warnings "-clear-no-such-hyp,-inexact-float".


(** ** Python exceptions *)

Inductive exn : Type :=
| IndexError
| AttributeError
| RuntimeError
| RecursionError.

Inductive result (A : Type) : Type :=
| Ok (a : A)
| Raise (e : exn).
Arguments Ok {A} a.
Arguments Raise {A} e.

#[global] Instance result_ret : MRet result := λ A a, Ok a.
#[global] Instance result_bind : MBind result :=
  λ A B f r, match r with Ok a => f a | Raise e => Raise e end.

(** ** Python sequences *)

(** [l[i]] for a non-negative index: [IndexError] past the end. *)
Definition getitem {A} (l : list A) (i : nat) : result A :=
  match l !! i with
  | Some x => Ok x
  | None => Raise IndexError
  end.

(** [range(0, stop, 3)]: the multiples of three below [stop]. *)
Definition range3 (stop : nat) : list nat :=
  (λ k, 3 * k) <$> seq 0 ((stop + 2) / 3).

(** ** Shapes and meshes *)

Record Geometry := {
  id : string;
  faces : list Z;
  verts : list float;
}.

Record Matrix := { data : list float }.

Record Transformation := { matrix : Matrix }.

Record Shape := {
  guid : string;
  geometry : Geometry;
  transformation : Transformation;
}.

(** [class Mesh]: the two numpy arrays, one row of three per entry. *)
Record Mesh := {
  mesh_vertices : list (float * float * float);
  mesh_faces : list (Z * Z * Z);
}.

(** The element [[x[i], x[i + 1], x[i + 2]]] of the comprehensions. *)
Definition triple_at {A} (x : list A) (i : nat) : result (A * A * A) :=
  p ← getitem x i; q ← getitem x (i + 1); r ← getitem x (i + 2); mret (p, q, r).

(** The comprehension [[x[i], x[i + 1], x[i + 2]] for i in range(0, len(x), 3)]. *)
Definition triples {A} (x : list A) : result (list (A * A * A)) :=
  mapM (triple_at x) (range3 (length x)).

Definition create_mesh (shape : Shape) : result Mesh :=
  let f := faces (geometry shape) in
  let v := verts (geometry shape) in
  vertices ← triples v;
  fcs ← triples f;
  mret {| mesh_vertices := vertices; mesh_faces := fcs |}.

(** [for x in l: s = body(s, x)], stopping at the first exception. *)
Fixpoint for_each {A S} (body : S → A → result S) (l : list A) (s : S) : result S :=
  match l with
  | [] => Ok s
  | x :: l' => s' ← body s x; for_each body l' s'
  end.

(** ** numpy arrays *)

(** A two-dimensional [numpy] array, row by row. *)
Abbreviation ndarray := (list (list float)).

(** [ndarray.transpose()] returns a transposed view; the receiver itself is
    left as it was. *)
Fixpoint transpose (rows : ndarray) : ndarray :=
  match rows with
  | [] => []
  | [r] => (λ x, [x]) <$> r
  | r :: rs => zip_with cons r (transpose rs)
  end.

(** ** The IFC entity store

    An opened file is a store of entity instances addressed by instance id.
    Attribute values that refer to other entities are ids (or [None]), so two
    elements that share a placement, a point or a direction share it here. *)

Inductive entity : Type :=
| IfcRoot (ifc_class : string) (GlobalId : string) (Name : option string)
          (ObjectPlacement : option nat) (IsDecomposedBy : list nat)
| IfcRelAggregates (RelatedObjects : list nat)
| IfcLocalPlacement (RelativePlacement : option nat)
| IfcAxis2Placement3D (Location : option nat) (Axis : option nat)
                      (RefDirection : option nat)
| IfcCartesianPoint (Coordinates : list float)
| IfcDirection (DirectionRatios : list float).

Abbreviation ifc_file := (gmap nat entity).

(** [entity.is_a()] without argument: the name of the entity's class. *)
Definition class_name (e : entity) : string :=
  match e with
  | IfcRoot c _ _ _ _ => c
  | IfcRelAggregates _ => "IfcRelAggregates"
  | IfcLocalPlacement _ => "IfcLocalPlacement"
  | IfcAxis2Placement3D _ _ _ => "IfcAxis2Placement3D"
  | IfcCartesianPoint _ => "IfcCartesianPoint"
  | IfcDirection _ => "IfcDirection"
  end.

(** Following an attribute value: [None.attr] is an [AttributeError]. *)
Definition deref (f : ifc_file) (r : option nat) : result entity :=
  match r with
  | None => Raise AttributeError
  | Some i => match f !! i with
              | Some e => Ok e
              | None => Raise RuntimeError
              end
  end.

Definition get_ObjectPlacement (e : entity) : result (option nat) :=
  match e with IfcRoot _ _ _ p _ => Ok p | _ => Raise AttributeError end.

Definition get_IsDecomposedBy (e : entity) : result (list nat) :=
  match e with IfcRoot _ _ _ _ d => Ok d | _ => Raise AttributeError end.

Definition get_Name (e : entity) : result (option string) :=
  match e with IfcRoot _ _ n _ _ => Ok n | _ => Raise AttributeError end.

Definition get_RelatedObjects (e : entity) : result (list nat) :=
  match e with IfcRelAggregates l => Ok l | _ => Raise AttributeError end.

Definition get_RelativePlacement (e : entity) : result (option nat) :=
  match e with IfcLocalPlacement p => Ok p | _ => Raise AttributeError end.

Definition get_Location (e : entity) : result (option nat) :=
  match e with IfcAxis2Placement3D l _ _ => Ok l | _ => Raise AttributeError end.

Definition get_Axis (e : entity) : result (option nat) :=
  match e with IfcAxis2Placement3D _ x _ => Ok x | _ => Raise AttributeError end.

Definition get_RefDirection (e : entity) : result (option nat) :=
  match e with IfcAxis2Placement3D _ _ d => Ok d | _ => Raise AttributeError end.

(** [target.Coordinates = v] *)
Definition set_Coordinates (f : ifc_file) (target : option nat) (v : list float)
  : result ifc_file :=
  match target with
  | None => Raise AttributeError
  | Some i => match f !! i with
              | Some (IfcCartesianPoint _) => Ok (<[i := IfcCartesianPoint v]> f)
              | Some _ => Raise AttributeError
              | None => Raise RuntimeError
              end
  end.

(** [target.DirectionRatios = v] *)
Definition set_DirectionRatios (f : ifc_file) (target : option nat) (v : list float)
  : result ifc_file :=
  match target with
  | None => Raise AttributeError
  | Some i => match f !! i with
              | Some (IfcDirection _) => Ok (<[i := IfcDirection v]> f)
              | Some _ => Raise AttributeError
              | None => Raise RuntimeError
              end
  end.

(** The expression [element.ObjectPlacement.RelativePlacement.<attribute>],
    evaluated afresh at each use as the source does. *)
Definition placement_attribute (attribute : entity → result (option nat))
    (f : ifc_file) (element : nat) : result (option nat) :=
  e ← deref f (Some element);
  op ← get_ObjectPlacement e;
  lp ← deref f op;
  rp ← get_RelativePlacement lp;
  a ← deref f rp;
  attribute a.

(** [element.ObjectPlacement.RelativePlacement.Location.Coordinates = v] *)
Definition set_placement_coordinates (f : ifc_file) (element : nat)
    (v : list float) : result ifc_file :=
  loc ← placement_attribute get_Location f element;
  set_Coordinates f loc v.

(** [if element...<attribute>: element...<attribute>.DirectionRatios = v] *)
Definition patch_direction (attribute : entity → result (option nat))
    (f : ifc_file) (element : nat) (v : list float) : result ifc_file :=
  d ← placement_attribute attribute f element;
  if bool_decide (is_Some d) then
    d ← placement_attribute attribute f element;
    set_DirectionRatios f d v
  else Ok f.

Definition patch_placement_to_origin (f : ifc_file) (element : nat) : result ifc_file :=
  f ← set_placement_coordinates f element [0; 0; 0]%float;
  f ← patch_direction get_Axis f element [0; 0; 1]%float;
  patch_direction get_RefDirection f element [1; 0; 0]%float.

(** What normalisation never touches: an entity without its numbers. *)
Definition skeleton (e : entity) : entity :=
  match e with
  | IfcCartesianPoint _ => IfcCartesianPoint []
  | IfcDirection _ => IfcDirection []
  | _ => e
  end.

(** Two files that differ at most in coordinates and direction ratios. *)
Definition similar (f g : ifc_file) : Prop := skeleton <$> f = skeleton <$> g.

(** [T] holds values for entities of [f], kind for kind. *)
Definition overlays (T f : ifc_file) : Prop := skeleton <$> T ⊆ skeleton <$> f.

(** [run] takes [f] to [f'] by laying fixed values over some of its points
    and directions, and does the same to every file similar to [f]. *)
Definition replays (run : ifc_file → result ifc_file) (f f' : ifc_file) : Prop :=
  ∃ T, f' = T ∪ f ∧ overlays T f ∧ ∀ g, similar f g → run g = Ok (T ∪ g).

(** The decomposition relation of a file: [part] is one of the
    [RelatedObjects] of one of the aggregations in [whole.IsDecomposedBy]. *)
Definition decomposes (f : ifc_file) (whole part : nat) : Prop :=
  ∃ c g n p rels rel parts,
    f !! whole = Some (IfcRoot c g n p rels)
    ∧ rel ∈ rels
    ∧ f !! rel = Some (IfcRelAggregates parts)
    ∧ part ∈ parts.

(** No element is, through any number of steps, a part of itself. *)
Definition acyclic (f : ifc_file) : Prop := ∀ x, ¬ tc (decomposes f) x x.

(** References are typed as the schema has them: [IsDecomposedBy] holds
    aggregations of the file, and these relate rooted elements of the
    file. *)
Definition well_typed (f : ifc_file) : Prop :=
  ∀ x c g n p rels, f !! x = Some (IfcRoot c g n p rels) →
    ∀ rel, rel ∈ rels →
      ∃ parts, f !! rel = Some (IfcRelAggregates parts)
        ∧ ∀ y, y ∈ parts → ∃ c' g' n' p' rels', f !! y = Some (IfcRoot c' g' n' p' rels').

(** The parts an element decomposes into, read off the store. *)
Definition parts_of (f : ifc_file) (element : nat) : list nat :=
  match f !! element with
  | Some (IfcRoot _ _ _ _ rels) =>
      rels ≫= (λ rel, match f !! rel with
                      | Some (IfcRelAggregates parts) => parts
                      | _ => []
                      end)
  | _ => []
  end.

(** A check that is enough for [acyclic]: every part has a larger instance
    id than its whole, as in a file written top-down. *)
Definition ids_increase (f : ifc_file) : bool :=
  forallb (λ ie, forallb (λ y, ie.1 <? y) (parts_of f ie.1)) (map_to_list f).

(** The check behind [well_typed]. *)
Definition references_typed (f : ifc_file) : bool :=
  forallb
    (λ ie, match ie.2 with
           | IfcRoot _ _ _ _ rels =>
               forallb
                 (λ rel, match f !! rel with
                         | Some (IfcRelAggregates parts) =>
                             forallb (λ y, match f !! y with
                                           | Some (IfcRoot _ _ _ _ _) => true
                                           | _ => false
                                           end) parts
                         | _ => false
                         end) rels
           | _ => true
           end)
    (map_to_list f).

(** [file.by_guid(guid)]: the rooted entity with that GlobalId. *)
Definition has_guid (g : string) (ie : nat * entity) : bool :=
  match ie.2 with
  | IfcRoot _ g' _ _ _ => bool_decide (g' = g)
  | _ => false
  end.

Definition by_guid (f : ifc_file) (g : string) : result nat :=
  match List.find (has_guid g) (map_to_list f) with
  | Some ie => Ok ie.1
  | None => Raise RuntimeError
  end.

(** [file.remove(element)] *)
Definition remove (f : ifc_file) (element : nat) : ifc_file := delete element f.

(** ** Contacts and the clash report *)

Record ContactRaw := {
  normal : list float;
  pos : list float;
  penetration_depth : float;
}.

Record Contact := {
  names : string * string;
  raw : ContactRaw;
}.

Record ClashRecord := {
  rec_a_global_id : string;
  rec_b_global_id : string;
  rec_a_ifc_class : string;
  rec_b_ifc_class : string;
  rec_a_name : option string;
  rec_b_name : option string;
  rec_normal : list float;
  rec_position : list float;
  rec_penetration_depth : float;
}.

(** The f-string [f'{a_global_id}-{b_global_id}']. *)
Definition clash_key (a_global_id b_global_id : string) : string :=
  a_global_id +:+ "-" +:+ b_global_id.

(** The key under which a contact is reported. *)
Definition contact_key (contact : Contact) : string :=
  clash_key (names contact).1 (names contact).2.

(** The entries of a record that are copied from the contact. *)
Definition reports (r : ClashRecord) (contact : Contact) : Prop :=
  rec_a_global_id r = (names contact).1
  ∧ rec_b_global_id r = (names contact).2
  ∧ rec_normal r = normal (raw contact)
  ∧ rec_position r = pos (raw contact)
  ∧ rec_penetration_depth r = penetration_depth (raw contact).

(** Whether a label contains the separator of the key. *)
Fixpoint has_dash (s : string) : bool :=
  match s with
  | EmptyString => false
  | String c s' => bool_decide (c = "-"%char) || has_dash s'
  end.

(** A Python [dict] with string keys, in insertion order. [d[k] = v] replaces
    the value in place when [k] is present and appends otherwise. *)
Abbreviation pydict V := (list (string * V)).

Fixpoint dict_set {V} (k : string) (v : V) (d : pydict V) : pydict V :=
  match d with
  | [] => [(k, v)]
  | (k', v') :: d' =>
      if bool_decide (k' = k) then (k, v) :: d' else (k', v') :: dict_set k v d'
  end.

Fixpoint dict_get {V} (k : string) (d : pydict V) : option V :=
  match d with
  | [] => None
  | (k', v') :: d' => if bool_decide (k' = k) then Some v' else dict_get k d'
  end.

(** [list(d.values())] *)
Definition dict_values {V} (d : pydict V) : list V := snd <$> d.

(** ** Collision scenes

    A scene records the [add_object(name, mesh, transform)] calls made on a
    [CollisionManager]; the mesh is a reference into the store of [Mesh]
    objects. *)

Abbreviation scene := (list (string * nat * ndarray)).

(** ** JSON documents, as [json.dump(..., indent=4)] lays them out *)

#[warnings="-register-all"]
Inductive json : Type :=
| JNull
| JString (s : string)
| JFloat (x : float)
| JList (items : list json)
| JDict (items : list (string * json)).

(** ** The geometry iterator *)

Record iterator := {
  valid_file : bool;
  current : option Shape;
  remaining : list (option Shape);
}.

Definition initialize (it : iterator) : bool := valid_file it.

Definition get (it : iterator) : option Shape := current it.

(** The shapes an initialized iterator delivers through [get()] and
    [next()], without the null ones. *)
Definition delivered (it : iterator) : list Shape :=
  omap (λ shape, shape) (get it :: remaining it).

(** The distinct geometry ids among some shapes. *)
Definition geometry_ids (shapes : list Shape) : gset string :=
  list_to_set ((λ shape, id (geometry shape)) <$> shapes).

(** ** External collaborators

    What the program takes from its libraries and its runtime: the schema's
    subtype test behind [is_a(ifc_class)], [ifcopenshell.open], the geometry
    iterator built for a file, the interference query of the collision
    library (which sees the two scenes and the meshes they refer to), the
    interpreter's recursion limit, and the float and string encoders of
    [json]. *)

Class Collaborators := {
  is_subtype : string → string → bool;
  ifcopenshell_open : string → result ifc_file;
  geom_iterator : ifc_file → iterator;
  in_collision_other : list Mesh → scene → scene → bool * list Contact;
  recursion_limit : nat;
  float_repr : float → string;
  encode_basestring : string → string;
}.

Section Program.
Context `{Collaborators}.

(** [part.is_a(ifc_class)] *)
Definition is_a (e : entity) (ifc_class : string) : bool :=
  is_subtype (class_name e) ifc_class.

(** [file.by_type(ifc_class)] *)
Definition by_type (f : ifc_file) (ifc_class : string) : list nat :=
  fst <$> List.filter (λ ie, is_a ie.2 ifc_class) (map_to_list f).

(** [depth] is the number of stack frames still available; Python raises
    [RecursionError] when they are used up. *)
Fixpoint find_decomposed_ifc_class (depth : nat) (f : ifc_file) (element : nat)
    (ifc_class : string) : result (list nat) :=
  match depth with
  | 0 => Raise RecursionError
  | S depth' =>
      let results := [] in
      e ← deref f (Some element);
      rel_aggregates ← get_IsDecomposedBy e;
      if bool_decide (rel_aggregates = []) then Ok results else
      for_each (λ results rel_aggregate,
          r ← deref f (Some rel_aggregate);
          parts ← get_RelatedObjects r;
          for_each (λ results part,
              p ← deref f (Some part);
              let results :=
                if is_a p ifc_class then results ++ [part] else results in
              sub ← find_decomposed_ifc_class depth' f part ifc_class;
              Ok (results ++ sub))
            parts results)
        rel_aggregates results
  end.

(** What a search from [element] is to find: the elements of the class that
    [element] decomposes into through one or more steps. *)
Definition matching_descendant (f : ifc_file) (ifc_class : string)
    (element y : nat) : Prop :=
  tc (decomposes f) element y ∧ ∃ e, f !! y = Some e ∧ is_a e ifc_class = true.

Definition patch_file (f : ifc_file) : result ifc_file :=
  project ← getitem (by_type f "IfcProject") 0;
  sites ← find_decomposed_ifc_class recursion_limit f project "IfcSite";
  f ← for_each patch_placement_to_origin sites f;
  buildings ← find_decomposed_ifc_class recursion_limit f project "IfcBuilding";
  for_each patch_placement_to_origin buildings f.

Definition purge_file (f : ifc_file) : ifc_file :=
  foldl remove f (by_type f "IfcSpace").

(** *** The clasher object *)

Inductive side : Type := side_a | side_b.

Record IfcClasher := {
  settings_output : string;
  tolerance : float;
  a : option ifc_file;
  b : option ifc_file;
  a_file : string;
  b_file : string;
  clashes : pydict ClashRecord;
  a_meshes : gmap string nat;
  b_meshes : gmap string nat;
  a_cm : option scene;
  b_cm : option scene;
  (** the [Mesh] objects allocated so far; a reference is an index *)
  heap : list Mesh;
}.

(** [IfcClasher.__init__]; [a_cm] and [b_cm] do not exist yet. *)
Definition init (a_file b_file : string) (output : string) : IfcClasher :=
  {| settings_output := output; tolerance := 0.01%float;
     a := None; b := None; a_file := a_file; b_file := b_file;
     clashes := []; a_meshes := ∅; b_meshes := ∅;
     a_cm := None; b_cm := None; heap := [] |}.

(** [getattr(self, ab)], [getattr(self, f'{ab}_file')], ... *)
Definition model_of (ab : side) (self : IfcClasher) : result ifc_file :=
  match (match ab with side_a => a self | side_b => b self end) with
  | Some f => Ok f
  | None => Raise AttributeError
  end.

Definition file_of (ab : side) (self : IfcClasher) : string :=
  match ab with side_a => a_file self | side_b => b_file self end.

Definition meshes_of (ab : side) (self : IfcClasher) : gmap string nat :=
  match ab with side_a => a_meshes self | side_b => b_meshes self end.

Definition cm_of (ab : side) (self : IfcClasher) : result scene :=
  match (match ab with side_a => a_cm self | side_b => b_cm self end) with
  | Some s => Ok s
  | None => Raise AttributeError
  end.

Definition set_model (ab : side) (f : ifc_file) (self : IfcClasher) : IfcClasher :=
  {| settings_output := settings_output self; tolerance := tolerance self;
     a := match ab with side_a => Some f | side_b => a self end;
     b := match ab with side_a => b self | side_b => Some f end;
     a_file := a_file self; b_file := b_file self; clashes := clashes self;
     a_meshes := a_meshes self; b_meshes := b_meshes self;
     a_cm := a_cm self; b_cm := b_cm self; heap := heap self |}.

Definition set_meshes (ab : side) (m : gmap string nat) (self : IfcClasher)
  : IfcClasher :=
  {| settings_output := settings_output self; tolerance := tolerance self;
     a := a self; b := b self;
     a_file := a_file self; b_file := b_file self; clashes := clashes self;
     a_meshes := match ab with side_a => m | side_b => a_meshes self end;
     b_meshes := match ab with side_a => b_meshes self | side_b => m end;
     a_cm := a_cm self; b_cm := b_cm self; heap := heap self |}.

Definition set_cm (ab : side) (s : scene) (self : IfcClasher) : IfcClasher :=
  {| settings_output := settings_output self; tolerance := tolerance self;
     a := a self; b := b self;
     a_file := a_file self; b_file := b_file self; clashes := clashes self;
     a_meshes := a_meshes self; b_meshes := b_meshes self;
     a_cm := match ab with side_a => Some s | side_b => a_cm self end;
     b_cm := match ab with side_a => b_cm self | side_b => Some s end;
     heap := heap self |}.

Definition set_heap (h : list Mesh) (self : IfcClasher) : IfcClasher :=
  {| settings_output := settings_output self; tolerance := tolerance self;
     a := a self; b := b self;
     a_file := a_file self; b_file := b_file self; clashes := clashes self;
     a_meshes := a_meshes self; b_meshes := b_meshes self;
     a_cm := a_cm self; b_cm := b_cm self; heap := h |}.

Definition set_clashes (d : pydict ClashRecord) (self : IfcClasher) : IfcClasher :=
  {| settings_output := settings_output self; tolerance := tolerance self;
     a := a self; b := b self;
     a_file := a_file self; b_file := b_file self; clashes := d;
     a_meshes := a_meshes self; b_meshes := b_meshes self;
     a_cm := a_cm self; b_cm := b_cm self; heap := heap self |}.

(** The other side. *)
Definition other (ab : side) : side :=
  match ab with side_a => side_b | side_b => side_a end.

(** What building one side's scene leaves alone: the settings, the models,
    the report and the other side's scene. *)
Definition keeps (ab : side) (self self' : IfcClasher) : Prop :=
  settings_output self' = settings_output self
  ∧ tolerance self' = tolerance self
  ∧ a self' = a self ∧ b self' = b self
  ∧ a_file self' = a_file self ∧ b_file self' = b_file self
  ∧ clashes self' = clashes self
  ∧ cm_of (other ab) self' = cm_of (other ab) self.

Definition patch_ifc (ab : side) (self : IfcClasher) : result IfcClasher :=
  f ← model_of ab self;
  f ← patch_file f;
  Ok (set_model ab f self).

Definition purge_elements (ab : side) (self : IfcClasher) : result IfcClasher :=
  f ← model_of ab self;
  Ok (set_model ab (purge_file f) self).

(** *** Mesh cache and scene building *)

(** The f-string [f'mesh-{shape.geometry.id}']. *)
Definition mesh_name (shape : Shape) : string := "mesh-" +:+ id (geometry shape).

(** The rows handed to [np.array]; the integer entries of the last row become
    floats in the array. *)
Definition transform_rows (m : list float) : result ndarray :=
  m0 ← getitem m 0; m3 ← getitem m 3; m6 ← getitem m 6; m9 ← getitem m 9;
  m1 ← getitem m 1; m4 ← getitem m 4; m7 ← getitem m 7; m10 ← getitem m 10;
  m2 ← getitem m 2; m5 ← getitem m 5; m8 ← getitem m 8; m11 ← getitem m 11;
  Ok [ [m0; m3; m6; m9];
       [m1; m4; m7; m10];
       [m2; m5; m8; m11];
       [0; 0; 0; 1]%float ].

(** [by_id] indexes the file with its argument, and indexing with a string
    looks the GlobalId up; the element found is only logged. *)
Definition add_collision_object (ab : side) (shape : option Shape)
    (self : IfcClasher) : result IfcClasher :=
  match shape with
  | None => Ok self
  | Some shape =>
      f ← model_of ab self;
      element ← by_guid f (guid shape);
      let mesh_name := mesh_name shape in
      '(mesh, self) ←
        match meshes_of ab self !! mesh_name with
        | Some mesh => Ok (mesh, self)
        | None =>
            m ← create_mesh shape;
            let mesh := length (heap self) in
            let self := set_heap (heap self ++ [m]) self in
            Ok (mesh, set_meshes ab (<[mesh_name := mesh]> (meshes_of ab self)) self)
        end;
      let m := data (matrix (transformation shape)) in
      mat ← transform_rows m;
      let discarded := transpose mat in
      cm ← cm_of ab self;
      Ok (set_cm ab (cm ++ [(guid shape, mesh, mat)]) self)
  end.

(** The [while True] loop: the current shape is consumed, then [next()]
    either moves to the following one or ends the loop. *)
Fixpoint consume (ab : side) (cur : option Shape) (rest : list (option Shape))
    (self : IfcClasher) : result IfcClasher :=
  self ← add_collision_object ab cur self;
  match rest with
  | [] => Ok self
  | x :: rest' => consume ab x rest' self
  end.

(** The progress bar printed by the loop is console output only and is left
    out. *)
Definition add_collision_objects (ab : side) (self : IfcClasher)
  : result IfcClasher :=
  f ← model_of ab self;
  let it := geom_iterator f in
  let valid_file := initialize it in
  if negb valid_file then Ok self
  else consume ab (get it) (remaining it) self.

(** *** Clash detection *)

Definition clash_contact (self : IfcClasher) (contact : Contact) : result IfcClasher :=
  let '(a_global_id, b_global_id) := names contact in
  fa ← model_of side_a self;
  ea ← by_guid fa a_global_id;
  fb ← model_of side_b self;
  eb ← by_guid fb b_global_id;
  if (penetration_depth (raw contact) <? tolerance self)%float then Ok self
  else
    ia ← deref fa (Some ea);
    ib ← deref fb (Some eb);
    a_name ← get_Name ia;
    b_name ← get_Name ib;
    Ok (set_clashes
          (dict_set (clash_key a_global_id b_global_id)
             {| rec_a_global_id := a_global_id;
                rec_b_global_id := b_global_id;
                rec_a_ifc_class := class_name ia;
                rec_b_ifc_class := class_name ib;
                rec_a_name := a_name;
                rec_b_name := b_name;
                rec_normal := normal (raw contact);
                rec_position := pos (raw contact);
                rec_penetration_depth := penetration_depth (raw contact) |}
             (clashes self))
          self).

(** The body of [for ab in ['a', 'b']]. *)
Definition load_side (self : IfcClasher) (ab : side) : result IfcClasher :=
  f ← ifcopenshell_open (file_of ab self);
  let self := set_model ab f self in
  self ← patch_ifc ab self;
  self ← purge_elements ab self;
  let self := set_cm ab [] self in
  add_collision_objects ab self.

(** What follows the loading loop in [clash]. *)
Definition query_and_report (self : IfcClasher) : result IfcClasher :=
  cm_a ← cm_of side_a self;
  cm_b ← cm_of side_b self;
  let results := in_collision_other (heap self) cm_a cm_b in
  if negb results.1 then Ok self
  else for_each clash_contact results.2 self.

Definition clash (self : IfcClasher) : result IfcClasher :=
  self ← for_each load_side [side_a; side_b] self;
  query_and_report self.

(** *** Export *)

Definition newline_indent (level : nat) : string :=
  String (Ascii.ascii_of_nat 10) (String.concat "" (replicate (4 * level) " ")).

Fixpoint json_encode (level : nat) (j : json) : string :=
  match j with
  | JNull => "null"
  | JString s => encode_basestring s
  | JFloat x => float_repr x
  | JList [] => "[]"
  | JList items =>
      "[" +:+ newline_indent (S level)
          +:+ String.concat ("," +:+ newline_indent (S level))
                (List.map (json_encode (S level)) items)
          +:+ newline_indent level +:+ "]"
  | JDict [] => "{}"
  | JDict items =>
      "{" +:+ newline_indent (S level)
          +:+ String.concat ("," +:+ newline_indent (S level))
                (List.map (λ kv, encode_basestring (fst kv) +:+ ": "
                                   +:+ json_encode (S level) (snd kv)) items)
          +:+ newline_indent level +:+ "}"
  end.

Definition json_of_name (n : option string) : json :=
  match n with Some s => JString s | None => JNull end.

Definition json_of_record (r : ClashRecord) : json :=
  JDict [ ("a_global_id", JString (rec_a_global_id r));
          ("b_global_id", JString (rec_b_global_id r));
          ("a_ifc_class", JString (rec_a_ifc_class r));
          ("b_ifc_class", JString (rec_b_ifc_class r));
          ("a_name", json_of_name (rec_a_name r));
          ("b_name", json_of_name (rec_b_name r));
          ("normal", JList (JFloat <$> rec_normal r));
          ("position", JList (JFloat <$> rec_position r));
          ("penetration_depth", JFloat (rec_penetration_depth r)) ].

(** [export]: the file system maps a path to the text of the file there;
    opening with mode ['w'] replaces what was there. *)
Definition export (self : IfcClasher) (fs : gmap string string) : gmap string string :=
  <[settings_output self :=
      json_encode 0 (JList (json_of_record <$> dict_values (clashes self)))]> fs.

(** The script's main block. *)
Definition main (a_file b_file output : string) (fs : gmap string string)
  : result (gmap string string) :=
  let ifc_clasher := init a_file b_file output in
  ifc_clasher ← clash ifc_clasher;
  Ok (export ifc_clasher fs).

End Program.

(** * Vocabulary for further properties *)

(** The contacts the filter of [clash] lets through. *)
Definition unfiltered (self : IfcClasher) (contacts : list Contact) : list Contact :=
  List.filter (λ c, negb (penetration_depth (raw c) <? tolerance self)%float) contacts.

(** A record whose labels resolve in the two models and whose classes and
    names are those of the elements found. *)
Definition described_by (fa fb : ifc_file) (r : ClashRecord) : Prop :=
  ∃ ea ia eb ib,
    by_guid fa (rec_a_global_id r) = Ok ea ∧ fa !! ea = Some ia
    ∧ rec_a_ifc_class r = class_name ia ∧ get_Name ia = Ok (rec_a_name r)
    ∧ by_guid fb (rec_b_global_id r) = Ok eb ∧ fb !! eb = Some ib
    ∧ rec_b_ifc_class r = class_name ib ∧ get_Name ib = Ok (rec_b_name r).

(** A shape that [add_collision_object] can take in whatever the cache
    holds: its label resolves, its buffers hold whole triples and its
    transform has its twelve entries. *)
Definition well_formed_shape (f : ifc_file) (shape : Shape) : Prop :=
  (∃ element, by_guid f (guid shape) = Ok element)
  ∧ length (verts (geometry shape)) mod 3 = 0
  ∧ length (faces (geometry shape)) mod 3 = 0
  ∧ 12 ≤ length (data (matrix (transformation shape))).

(** * Sample data

    A small model, its shapes and stand-ins for the collaborators, on which
    the program is run in the examples below.  The building's placement
    shares its point and its direction with the site's, and uses one
    direction both as axis and as reference direction. *)

Module Sample.

Definition file : ifc_file :=
  list_to_map
    [ (1, IfcRoot "IfcProject" "project" (Some "Project") None [2]);
      (2, IfcRelAggregates [3]);
      (3, IfcRoot "IfcSite" "site" None (Some 4) [8]);
      (4, IfcLocalPlacement (Some 5));
      (5, IfcAxis2Placement3D (Some 6) (Some 7) None);
      (6, IfcCartesianPoint [10; 20; 30]%float);
      (7, IfcDirection [0; 1; 0]%float);
      (8, IfcRelAggregates [9]);
      (9, IfcRoot "IfcBuilding" "building" (Some "Block") (Some 10) []);
      (10, IfcLocalPlacement (Some 11));
      (11, IfcAxis2Placement3D (Some 6) (Some 7) (Some 7));
      (12, IfcRoot "IfcWall" "wall" (Some "Wall") None []);
      (13, IfcRoot "IfcSlab" "slab" (Some "Slab") None []);
      (14, IfcRoot "IfcDoor" "door" None None []);
      (15, IfcRoot "IfcSpace" "space" (Some "Room") None []);
      (16, IfcRoot "IfcWall" "lvl-1" None None []);
      (17, IfcRoot "IfcWall" "lvl" None None []);
      (18, IfcRoot "IfcWall" "1-wall" None None []) ].

(** The same model without the elements that have geometry. *)
Definition bare_file : ifc_file := delete 12 (delete 13 (delete 14 file)).

Definition triangle : Geometry :=
  {| id := "g1"; faces := [0; 1; 2]%Z;
     verts := [0; 0; 0; 1; 0; 0; 0; 1; 0]%float |}.

Definition quad : Geometry :=
  {| id := "g2"; faces := [0; 1; 2; 0; 2; 3]%Z;
     verts := [0; 0; 0; 1; 0; 0; 1; 1; 0; 0; 1; 0]%float |}.

(** A face buffer that stops in the middle of a triangle. *)
Definition ragged : Geometry :=
  {| id := "g3"; faces := [0; 1; 2; 0]%Z;
     verts := [0; 0; 0; 1; 0; 0; 0; 1; 0]%float |}.

Definition placed (x y z : float) : Transformation :=
  {| matrix := {| data := [1; 0; 0; 0; 1; 0; 0; 0; 1; x; y; z]%float |} |}.

Definition wall : Shape :=
  {| guid := "wall"; geometry := triangle; transformation := placed 0 0 0 |}.
(** A quarter turn about the vertical axis, then a translation. *)
Definition turned (x y z : float) : Transformation :=
  {| matrix := {| data := [0; 1; 0; -1; 0; 0; 0; 0; 1; x; y; z]%float |} |}.

Definition slab : Shape :=
  {| guid := "slab"; geometry := triangle; transformation := turned 5 6 7 |}.
Definition door : Shape :=
  {| guid := "door"; geometry := quad; transformation := placed 2 0 0 |}.
Definition broken : Shape :=
  {| guid := "door"; geometry := ragged; transformation := placed 0 0 0 |}.

Definition touching (a_label b_label : string) (depth : float) : Contact :=
  {| names := (a_label, b_label);
     raw := {| normal := [0; 0; 1]%float; pos := [1; 2; 3]%float;
               penetration_depth := depth |} |}.

Definition quote : string := String (ascii_of_nat 34) EmptyString.

(** The collaborators: a file named [bare.ifc] has nothing to tessellate, any
    other file is [file]; the interference query answers [answer]. *)
Definition collaborators (answer : bool * list Contact) : Collaborators :=
  {| is_subtype := String.eqb;
     ifcopenshell_open :=
       λ path, if String.eqb path "bare.ifc" then Ok bare_file else Ok file;
     geom_iterator :=
       λ f, {| valid_file := bool_decide (is_Some (f !! 12));
               current := Some wall;
               remaining := [None; Some slab; Some door] |};
     in_collision_other := λ _ _ _, answer;
     recursion_limit := 50;
     float_repr := λ x, if (x =? 0)%float then "0.0" else "1.0";
     encode_basestring := λ s, quote +:+ s +:+ quote |}.

(** The run on it: the states the program passes through, evaluated. *)

Definition env : Collaborators := collaborators (false, []).
#[local] Existing Instance env.

Definition value {A} (r : result A) (default : A) : A :=
  match r with Ok x => x | Raise _ => default end.

Definition blank : IfcClasher := init "a.ifc" "b.ifc" "out.json".

(** Side a opened, with its scene created and nothing added yet. *)
Definition opened : IfcClasher := set_model side_a file blank.
Definition ready : IfcClasher := set_cm side_a [] opened.

Definition patched : IfcClasher :=
  Eval vm_compute in value (patch_ifc side_a opened) blank.

Definition after_slab : IfcClasher :=
  Eval vm_compute in value (add_collision_object side_a (Some slab) ready) blank.

Definition built : IfcClasher :=
  Eval vm_compute in value (add_collision_objects side_a ready) blank.

Definition loaded : IfcClasher :=
  Eval vm_compute in value (for_each load_side [side_a; side_b] blank) blank.

Definition scene_a : scene := Eval vm_compute in value (cm_of side_a loaded) [].
Definition scene_b : scene := Eval vm_compute in value (cm_of side_b loaded) [].

(** The same with a file for side a that has nothing to tessellate. *)
Definition bare_loaded : IfcClasher :=
  Eval vm_compute in
    value (for_each load_side [side_a; side_b]
             (init "bare.ifc" "b.ifc" "out.json")) blank.

Definition bare_model : ifc_file :=
  Eval vm_compute in value (model_of side_a bare_loaded) ∅.

Definition bare_scene_b : scene :=
  Eval vm_compute in value (cm_of side_b bare_loaded) [].

(** Contacts at the three depths around the tolerance. *)
Definition around_tolerance : list Contact :=
  [ touching "wall" "slab" 0.0099; touching "wall" "door" 0.01;
    touching "slab" "door" 0.02 ].

Definition filtered : IfcClasher :=
  Eval vm_compute in value (for_each clash_contact around_tolerance loaded) blank.

(** Two contacts for one pair. *)
Definition twice : list Contact :=
  [ touching "wall" "slab" 0.5; touching "wall" "slab" 0.25 ].

Definition deduplicated : IfcClasher :=
  Eval vm_compute in value (for_each clash_contact twice loaded) blank.

(** Two pairs of labels whose keys coincide. *)
Definition level_wall : Contact := touching "lvl-1" "wall" 0.5.
Definition wall_of_level : Contact := touching "lvl" "1-wall" 0.25.

Definition collided : IfcClasher :=
  Eval vm_compute in
    value (for_each clash_contact [level_wall; wall_of_level] loaded) blank.

(** A contact whose depth is not a number. *)
Definition undefined_depth : Contact := touching "wall" "slab" nan.


(** The record the run with [around_tolerance] keeps for the wall and the
    door. *)
Definition wall_door : ClashRecord :=
  {| rec_a_global_id := "wall"; rec_b_global_id := "door";
     rec_a_ifc_class := "IfcWall"; rec_b_ifc_class := "IfcDoor";
     rec_a_name := Some "Wall"; rec_b_name := None;
     rec_normal := [0; 0; 1]%float; rec_position := [1; 2; 3]%float;
     rec_penetration_depth := 0.01 |}.

(** A query that answers with [undefined_depth], and the run on it. *)
Definition undefined_env : Collaborators := collaborators (true, [undefined_depth]).

Definition undefined_run : IfcClasher :=
  Eval vm_compute in value (@clash undefined_env blank) blank.

Definition undefined_record : ClashRecord :=
  {| rec_a_global_id := "wall"; rec_b_global_id := "slab";
     rec_a_ifc_class := "IfcWall"; rec_b_ifc_class := "IfcSlab";
     rec_a_name := Some "Wall"; rec_b_name := Some "Slab";
     rec_normal := [0; 0; 1]%float; rec_position := [1; 2; 3]%float;
     rec_penetration_depth := nan |}.

(** The models the loaded clasher holds. *)
Definition model_a : ifc_file := Eval vm_compute in value (model_of side_a loaded) ∅.
Definition model_b : ifc_file := Eval vm_compute in value (model_of side_b loaded) ∅.

(** A shallow contact whose first label is in neither model. *)
Definition ghost : Contact := touching "ghost" "slab" 0.001.

(** Contacts with a repeated pair and a shallow one in between. *)
Definition mixed : list Contact :=
  [ touching "wall" "slab" 0.5; touching "wall" "door" 0.001;
    touching "slab" "door" 0.5; touching "wall" "slab" 0.25 ].

Definition ordered : IfcClasher :=
  Eval vm_compute in value (for_each clash_contact mixed loaded) blank.

(** Collaborators that open a model without a project. *)
Definition orphan_file : ifc_file := delete 1 file.

Definition orphan_env : Collaborators :=
  {| is_subtype := String.eqb;
     ifcopenshell_open := λ _, Ok orphan_file;
     geom_iterator := @geom_iterator env;
     in_collision_other := @in_collision_other env;
     recursion_limit := 50;
     float_repr := @float_repr env;
     encode_basestring := @encode_basestring env |}.

(** A site placed by a location alone, and one without placement. *)
Definition plain_file : ifc_file :=
  list_to_map
    [ (1, IfcRoot "IfcSite" "here" None (Some 2) []);
      (2, IfcLocalPlacement (Some 3));
      (3, IfcAxis2Placement3D (Some 4) None None);
      (4, IfcCartesianPoint [1; 2; 3]%float);
      (5, IfcRoot "IfcSite" "nowhere" None None []) ].

(** A project that is a part of its own site. *)
Definition cyclic_file : ifc_file :=
  list_to_map
    [ (1, IfcRoot "IfcProject" "project" None None [2]);
      (2, IfcRelAggregates [3]);
      (3, IfcRoot "IfcSite" "site" None None [4]);
      (4, IfcRelAggregates [1]) ].

(** A shape with the triangle's geometry id and a face buffer that stops in
    the middle of a triangle. *)
Definition twin : Shape :=
  {| guid := "door";
     geometry := {| id := "g1"; faces := [0; 1; 2; 0]%Z;
                    verts := [0; 0; 0; 1; 0; 0; 0; 1; 0]%float |};
     transformation := placed 0 0 0 |}.

Definition identity_rows : ndarray :=
  Eval vm_compute in value (transform_rows (data (matrix (placed 0 0 0)))) [].

Definition built_scene : scene := Eval vm_compute in value (cm_of side_a built) [].

(** Side b made ready on the clasher whose side a is built, and built. *)
Definition ready_b : IfcClasher := set_cm side_b [] (set_model side_b file built).

Definition both_built : IfcClasher :=
  Eval vm_compute in value (add_collision_objects side_b ready_b) blank.

End Sample.

(** * Properties *)

(** ** The exception monad *)

Lemma bind_Ok {A B} (f : A → result B) (r : result A) (b : B) :
  r ≫= f = Ok b ↔ ∃ a, r = Ok a ∧ f a = Ok b.
Proof.
  destruct r as [a|e]; simpl; split.
  - intros H. exists a. auto.
  - intros (a' & [= <-] & H). exact H.
  - discriminate.
  - intros (a' & [=] & _).
Qed.

Lemma mapM_Ok_length {A B} (f : A → result B) (l : list A) (k : list B) :
  mapM f l = Ok k → length k = length l.
Proof.
  revert k. induction l as [|x l IH]; intros k; simpl.
  - intros [= <-]. reflexivity.
  - destruct (f x) as [y|e]; simpl; [|discriminate].
    destruct (mapM f l) as [k'|e]; simpl; [|discriminate].
    intros [= <-]. simpl. f_equal. apply IH. reflexivity.
Qed.

Lemma mapM_Ok_lookup {A B} (f : A → result B) (l : list A) (k : list B) :
  mapM f l = Ok k → ∀ i x, l !! i = Some x → ∃ y, f x = Ok y ∧ k !! i = Some y.
Proof.
  revert k. induction l as [|x l IH]; intros k; simpl.
  - intros _ i x. rewrite lookup_nil. discriminate.
  - destruct (f x) as [y|e] eqn:Hfx; simpl; [|discriminate].
    destruct (mapM f l) as [k'|e]; simpl; [|discriminate].
    intros [= <-] [|i] x'; simpl.
    + intros [= <-]. exists y. auto.
    + intros Hi. apply (IH k' eq_refl i x' Hi).
Qed.

Lemma mapM_all_Ok {A B} (f : A → result B) (l : list A) :
  (∀ x, x ∈ l → ∃ y, f x = Ok y) → ∃ k, mapM f l = Ok k.
Proof.
  induction l as [|x l IH]; intros H; simpl.
  - exists []. reflexivity.
  - destruct (H x) as [y Hy]; [left|].
    destruct IH as [k Hk]; [intros z Hz; apply H; right; exact Hz|].
    rewrite Hy, Hk. simpl. exists (y :: k). reflexivity.
Qed.

Lemma mapM_Raise {A B} (f : A → result B) (l1 l2 : list A) (x : A) (e : exn) :
  (∀ z, z ∈ l1 → ∃ y, f z = Ok y) → f x = Raise e →
  mapM f (l1 ++ x :: l2) = Raise e.
Proof.
  induction l1 as [|z l1 IH]; intros H Hx; simpl.
  - rewrite Hx. reflexivity.
  - destruct (H z) as [y Hy]; [left|]. rewrite Hy. simpl.
    rewrite IH; [reflexivity| |exact Hx].
    intros w Hw. apply H. right. exact Hw.
Qed.

(** ** Mesh construction *)

Lemma range3_divisible (n : nat) : range3 (3 * n) = (λ k, 3 * k) <$> seq 0 n.
Proof.
  unfold range3. replace ((3 * n + 2) / 3) with n; [reflexivity|].
  apply (Nat.div_unique _ 3 n 2); lia.
Qed.

Lemma range3_remainder (n r : nat) :
  0 < r < 3 → range3 (3 * n + r) = ((λ k, 3 * k) <$> seq 0 n) ++ [3 * n].
Proof.
  intros Hr. unfold range3.
  replace ((3 * n + r + 2) / 3) with (S n).
  - rewrite seq_S, fmap_app. reflexivity.
  - apply (Nat.div_unique _ 3 (S n) (r - 1)); lia.
Qed.

Section Triples.
Context {A : Type}.
Implicit Types x : list A.

Lemma triple_at_Ok x (i : nat) :
  i + 2 < length x →
  ∃ p q r, x !! i = Some p ∧ x !! (i + 1) = Some q ∧ x !! (i + 2) = Some r
           ∧ triple_at x i = Ok (p, q, r).
Proof.
  intros Hi.
  destruct (lookup_lt_is_Some_2 x i) as [p Hp]; [lia|].
  destruct (lookup_lt_is_Some_2 x (i + 1)) as [q Hq]; [lia|].
  destruct (lookup_lt_is_Some_2 x (i + 2)) as [r Hr]; [lia|].
  exists p, q, r. unfold triple_at, getitem.
  rewrite Hp, Hq, Hr. auto.
Qed.

Lemma triple_at_past_end x (i : nat) :
  i < length x → length x ≤ i + 2 → triple_at x i = Raise IndexError.
Proof.
  intros Hlo Hhi. unfold triple_at, getitem.
  destruct (lookup_lt_is_Some_2 x i Hlo) as [p ->]. simpl.
  destruct (x !! (i + 1)) as [q|] eqn:Hq; simpl; [|reflexivity].
  rewrite (lookup_ge_None_2 x (i + 2)); [reflexivity|lia].
Qed.

Lemma triples_divisible x :
  length x mod 3 = 0 →
  ∃ t, triples x = Ok t ∧ length t = length x / 3 ∧
       ∀ k, k < length x / 3 →
         ∃ p q r, x !! (3 * k) = Some p ∧ x !! (3 * k + 1) = Some q
                  ∧ x !! (3 * k + 2) = Some r ∧ t !! k = Some (p, q, r).
Proof.
  intros Hmod.
  pose proof (Nat.div_mod_eq (length x) 3) as Hlen. rewrite Hmod in Hlen.
  set (n := length x / 3) in *.
  assert (Hrange : range3 (length x) = (λ k, 3 * k) <$> seq 0 n).
  { rewrite <- range3_divisible. f_equal. lia. }
  destruct (mapM_all_Ok (triple_at x) (range3 (length x))) as [t Ht].
  { intros i Hi. rewrite Hrange in Hi.
    apply list_elem_of_fmap in Hi as (k & -> & Hk).
    apply elem_of_seq in Hk.
    destruct (triple_at_Ok x (3 * k)) as (p & q & r & _ & _ & _ & Heq); [lia|].
    eauto. }
  exists t. split; [exact Ht|]. split.
  - rewrite (mapM_Ok_length _ _ _ Ht), Hrange, length_fmap, length_seq.
    reflexivity.
  - intros k Hk.
    destruct (mapM_Ok_lookup _ _ _ Ht k (3 * k)) as (y & Hy & Hty).
    { rewrite Hrange, list_lookup_fmap, lookup_seq_lt by exact Hk. reflexivity. }
    destruct (triple_at_Ok x (3 * k)) as (p & q & r & Hp & Hq & Hr & Heq); [lia|].
    exists p, q, r. repeat split; try assumption.
    rewrite Hty. f_equal. congruence.
Qed.

Lemma triples_not_divisible x :
  length x mod 3 ≠ 0 → triples x = Raise IndexError.
Proof.
  intros Hmod.
  pose proof (Nat.div_mod_eq (length x) 3) as Hlen.
  pose proof (Nat.mod_upper_bound (length x) 3) as Hub.
  set (n := length x / 3) in *. set (r := length x mod 3) in *.
  unfold triples. rewrite Hlen, range3_remainder by lia.
  apply mapM_Raise.
  - intros i Hi. apply list_elem_of_fmap in Hi as (k & -> & Hk).
    apply elem_of_seq in Hk.
    destruct (triple_at_Ok x (3 * k)) as (p & q & r' & _ & _ & _ & Heq); [lia|].
    eauto.
  - apply (triple_at_past_end x (3 * n)); lia.
Qed.

End Triples.

(** C10. [create_mesh] returns a mesh exactly when both buffer lengths are
    multiples of three.  Then vertex [k] is [(v[3k], v[3k+1], v[3k+2])] and
    face [k] is [(f[3k], f[3k+1], f[3k+2])]; when a length is not a multiple
    of three an index past the end of that buffer is read and the
    construction stops with [IndexError]. *)
Theorem create_mesh_divisible_by_three (shape : Shape) :
  let v := verts (geometry shape) in
  let f := faces (geometry shape) in
  (length v mod 3 = 0 ∧ length f mod 3 = 0 →
     ∃ mesh, create_mesh shape = Ok mesh
       ∧ length (mesh_vertices mesh) = length v / 3
       ∧ length (mesh_faces mesh) = length f / 3
       ∧ (∀ k, k < length v / 3 →
            ∃ p q r, v !! (3 * k) = Some p ∧ v !! (3 * k + 1) = Some q
                     ∧ v !! (3 * k + 2) = Some r
                     ∧ mesh_vertices mesh !! k = Some (p, q, r))
       ∧ (∀ k, k < length f / 3 →
            ∃ p q r, f !! (3 * k) = Some p ∧ f !! (3 * k + 1) = Some q
                     ∧ f !! (3 * k + 2) = Some r
                     ∧ mesh_faces mesh !! k = Some (p, q, r)))
  ∧ (length v mod 3 ≠ 0 ∨ length f mod 3 ≠ 0 →
     create_mesh shape = Raise IndexError).
Proof.
  intros v f. split.
  - intros [Hv Hf].
    destruct (triples_divisible v Hv) as (tv & Htv & Hlv & Hkv).
    destruct (triples_divisible f Hf) as (tf & Htf & Hlf & Hkf).
    exists {| mesh_vertices := tv; mesh_faces := tf |}.
    unfold create_mesh. fold v f. rewrite Htv, Htf. simpl. auto.
  - intros Hbad. unfold create_mesh. fold v f.
    destruct (decide (length v mod 3 = 0)) as [Hv|Hv].
    + destruct (triples_divisible v Hv) as (tv & -> & _). simpl.
      destruct Hbad as [Hbad|Hbad]; [contradiction|].
      rewrite (triples_not_divisible f Hbad). reflexivity.
    + rewrite (triples_not_divisible v Hv). reflexivity.
Qed.

(** ** The clasher's attributes *)

Section Attributes.
Context `{Collaborators}.
Implicit Types (self : IfcClasher) (ab : side).

Lemma cm_of_set_cm ab s self : cm_of ab (set_cm ab s self) = Ok s.
Proof. destruct ab; reflexivity. Qed.

Lemma cm_of_set_cm_other ab s self :
  cm_of (other ab) (set_cm ab s self) = cm_of (other ab) self.
Proof. destruct ab; reflexivity. Qed.

Lemma meshes_of_set_meshes ab m self : meshes_of ab (set_meshes ab m self) = m.
Proof. destruct ab; reflexivity. Qed.

Lemma meshes_of_set_meshes_other ab m self :
  meshes_of (other ab) (set_meshes ab m self) = meshes_of (other ab) self.
Proof. destruct ab; reflexivity. Qed.

Lemma model_of_set_model ab f self : model_of ab (set_model ab f self) = Ok f.
Proof. destruct ab; reflexivity. Qed.

Lemma model_of_set_model_other ab f self :
  model_of (other ab) (set_model ab f self) = model_of (other ab) self.
Proof. destruct ab; reflexivity. Qed.

End Attributes.

(** ** The transform handed to the scene *)

Lemma getitem_Ok {A} (l : list A) (i : nat) (x : A) :
  getitem l i = Ok x ↔ l !! i = Some x.
Proof.
  unfold getitem. destruct (l !! i); split; intros Heq; congruence.
Qed.

Lemma transform_rows_Ok (m : list float) (mat : ndarray) :
  transform_rows m = Ok mat →
  ∃ m0 m1 m2 m3 m4 m5 m6 m7 m8 m9 m10 m11,
    take 12 m = [m0; m1; m2; m3; m4; m5; m6; m7; m8; m9; m10; m11]
    ∧ mat = [ [m0; m3; m6; m9];
              [m1; m4; m7; m10];
              [m2; m5; m8; m11];
              [0; 0; 0; 1]%float ].
Proof.
  unfold transform_rows. intros Hm.
  apply bind_Ok in Hm as (m0 & H0 & Hm). apply bind_Ok in Hm as (m3 & H3 & Hm).
  apply bind_Ok in Hm as (m6 & H6 & Hm). apply bind_Ok in Hm as (m9 & H9 & Hm).
  apply bind_Ok in Hm as (m1 & H1 & Hm). apply bind_Ok in Hm as (m4 & H4 & Hm).
  apply bind_Ok in Hm as (m7 & H7 & Hm). apply bind_Ok in Hm as (m10 & H10 & Hm).
  apply bind_Ok in Hm as (m2 & H2 & Hm). apply bind_Ok in Hm as (m5 & H5 & Hm).
  apply bind_Ok in Hm as (m8 & H8 & Hm). apply bind_Ok in Hm as (m11 & H11 & Hm).
  injection Hm as <-.
  exists m0, m1, m2, m3, m4, m5, m6, m7, m8, m9, m10, m11.
  split; [|reflexivity].
  apply getitem_Ok in H0, H1, H2, H3, H4, H5, H6, H7, H8, H9, H10, H11.
  do 12 (destruct m as [|? m]; [discriminate|]).
  cbv in H0, H1, H2, H3, H4, H5, H6, H7, H8, H9, H10, H11.
  simpl. rewrite take_0. congruence.
Qed.

Section SceneBuilder.
Context `{Collaborators}.
Implicit Types (self : IfcClasher) (ab : side).

(** What one call of [add_collision_object] on a shape does to the clasher. *)
Lemma add_collision_object_Some ab shape self self' :
  add_collision_object ab (Some shape) self = Ok self' →
  ∃ f element mesh mat cm,
    model_of ab self = Ok f
    ∧ by_guid f (guid shape) = Ok element
    ∧ transform_rows (data (matrix (transformation shape))) = Ok mat
    ∧ cm_of ab self = Ok cm
    ∧ cm_of ab self' = Ok (cm ++ [(guid shape, mesh, mat)])
    ∧ meshes_of ab self' !! mesh_name shape = Some mesh
    ∧ ((meshes_of ab self !! mesh_name shape = Some mesh
        ∧ heap self' = heap self
        ∧ meshes_of ab self' = meshes_of ab self)
       ∨ (meshes_of ab self !! mesh_name shape = None
          ∧ mesh = length (heap self)
          ∧ (∃ m, create_mesh shape = Ok m ∧ heap self' = heap self ++ [m])
          ∧ meshes_of ab self' = <[mesh_name shape := mesh]> (meshes_of ab self))).
Proof.
  unfold add_collision_object. intros Hrun.
  apply bind_Ok in Hrun as (f & Hf & Hrun).
  apply bind_Ok in Hrun as (element & Hel & Hrun).
  apply bind_Ok in Hrun as ([mesh self1] & Hcache & Hrun).
  apply bind_Ok in Hrun as (mat & Hmat & Hrun).
  apply bind_Ok in Hrun as (cm & Hcm & Hrun).
  injection Hrun as <-.
  exists f, element, mesh, mat.
  destruct (meshes_of ab self !! mesh_name shape) as [r|] eqn:Hlook.
  - injection Hcache as -> ->. exists cm.
    split; [exact Hf|]. split; [exact Hel|]. split; [exact Hmat|].
    split; [exact Hcm|]. split; [apply cm_of_set_cm|].
    split; [destruct ab; exact Hlook|].
    left. destruct ab; auto.
  - apply bind_Ok in Hcache as (m & Hm & Hcache).
    injection Hcache as <- <-.
    assert (Hcm0 : cm_of ab self = Ok cm) by (destruct ab; exact Hcm).
    exists cm.
    split; [exact Hf|]. split; [exact Hel|]. split; [exact Hmat|].
    split; [exact Hcm0|]. split; [apply cm_of_set_cm|].
    split; [destruct ab; simpl; apply lookup_insert_eq|].
    right. split; [reflexivity|]. split; [reflexivity|]. split.
    + exists m. split; [exact Hm|]. destruct ab; reflexivity.
    + destruct ab; reflexivity.
Qed.

(** C1. The matrix that [add_collision_object] hands to the scene for a shape
    with transform data [m0 .. m11]: its upper-left 3x3 block is the
    transpose of the first nine entries read row by row, its last column
    holds the last three entries, and its bottom row is [0, 0, 0, 1].  The
    call of [transpose] in the source only builds a view and leaves this
    matrix as it is. *)
Theorem scene_transform_of_shape ab shape self self' :
  add_collision_object ab (Some shape) self = Ok self' →
  ∃ m0 m1 m2 m3 m4 m5 m6 m7 m8 m9 m10 m11 mesh cm,
    take 12 (data (matrix (transformation shape)))
      = [m0; m1; m2; m3; m4; m5; m6; m7; m8; m9; m10; m11]
    ∧ cm_of ab self = Ok cm
    ∧ cm_of ab self' =
        Ok (cm ++ [(guid shape, mesh,
                    [ [m0; m3; m6; m9];
                      [m1; m4; m7; m10];
                      [m2; m5; m8; m11];
                      [0; 0; 0; 1]%float ])])
    ∧ [ [m0; m3; m6]; [m1; m4; m7]; [m2; m5; m8] ]
        = transpose [ [m0; m1; m2]; [m3; m4; m5]; [m6; m7; m8] ].
Proof.
  intros Hrun.
  apply add_collision_object_Some in Hrun
    as (f & element & mesh & mat & cm & _ & _ & Hmat & Hcm & Hcm' & _).
  apply transform_rows_Ok in Hmat
    as (m0 & m1 & m2 & m3 & m4 & m5 & m6 & m7 & m8 & m9 & m10 & m11 & Htake & ->).
  exists m0, m1, m2, m3, m4, m5, m6, m7, m8, m9, m10, m11, mesh, cm.
  repeat split; assumption || reflexivity.
Qed.

End SceneBuilder.

(** ** The mesh cache *)

Lemma size_list_to_set_fmap_inj (f : string → string) `{!Inj (=) (=) f}
    (l : list string) :
  size (list_to_set (f <$> l) : gset string) = size (list_to_set l : gset string).
Proof.
  induction l as [|x l IH]; [reflexivity|].
  rewrite fmap_cons, !list_to_set_cons.
  destruct (decide (x ∈ l)) as [Hin|Hin].
  - assert (Hfin : f x ∈ f <$> l) by (apply list_elem_of_fmap; eauto).
    rewrite !subseteq_union_1_L; [exact IH| |].
    + apply singleton_subseteq_l, elem_of_list_to_set, Hin.
    + apply singleton_subseteq_l, elem_of_list_to_set, Hfin.
  - assert (Hfin : f x ∉ f <$> l).
    { intros (y & Heq & Hy)%list_elem_of_fmap. apply (inj f) in Heq. congruence. }
    rewrite !size_union, !size_singleton, IH; [reflexivity| |].
    + apply disjoint_singleton_l. rewrite elem_of_list_to_set. exact Hin.
    + apply disjoint_singleton_l. rewrite elem_of_list_to_set. exact Hfin.
Qed.

Lemma mesh_name_inj (s1 s2 : Shape) :
  mesh_name s1 = mesh_name s2 → id (geometry s1) = id (geometry s2).
Proof. unfold mesh_name. intros Heq. injection Heq. auto. Qed.

Lemma size_mesh_names (shapes : list Shape) :
  size (list_to_set (mesh_name <$> shapes) : gset string)
  = size (geometry_ids shapes).
Proof.
  unfold geometry_ids.
  rewrite <- (size_list_to_set_fmap_inj (String.append "mesh-")
                ((λ shape, id (geometry shape)) <$> shapes)).
  rewrite <- list_fmap_compose. reflexivity.
Qed.

Section MeshCache.
Context `{Collaborators}.
Implicit Types (self : IfcClasher) (ab : side).

Lemma consume_for_each ab rest : ∀ cur self,
  consume ab cur rest self
  = for_each (λ self shape, add_collision_object ab shape self) (cur :: rest) self.
Proof.
  induction rest as [|x rest IH]; intros cur self; simpl.
  - destruct (add_collision_object ab cur self); reflexivity.
  - destruct (add_collision_object ab cur self) as [self1|e]; simpl; [|reflexivity].
    apply IH.
Qed.

(** The effect of a run of [add_collision_object] calls on one side's scene,
    cache and mesh store. *)
Lemma add_collision_object_run ab (l : list (option Shape)) : ∀ self self',
  for_each (λ self shape, add_collision_object ab shape self) l self = Ok self' →
  let shapes := omap (λ shape, shape) l in
  let names : gset string := list_to_set (mesh_name <$> shapes) in
  ∃ entries new,
    (∀ cm, cm_of ab self = Ok cm → cm_of ab self' = Ok (cm ++ entries))
    ∧ heap self' = heap self ++ new
    ∧ meshes_of ab self ⊆ meshes_of ab self'
    ∧ Forall2 (λ s e, e.1.1 = guid s
                      ∧ meshes_of ab self' !! mesh_name s = Some e.1.2)
        shapes entries
    ∧ length new = size (names ∖ dom (meshes_of ab self))
    ∧ (∀ k r, meshes_of ab self' !! k = Some r → meshes_of ab self !! k = None →
              length (heap self) ≤ r < length (heap self'))
    ∧ (∀ k1 k2 r, meshes_of ab self' !! k1 = Some r →
                  meshes_of ab self' !! k2 = Some r →
                  meshes_of ab self !! k1 = None →
                  meshes_of ab self !! k2 = None → k1 = k2).
Proof.
  induction l as [|[shape|] l IH]; intros self self' Hrun shapes names.
  - injection Hrun as <-. exists [], []. rewrite !app_nil_r.
    split; [intros cm Hcm; rewrite app_nil_r; exact Hcm|].
    split; [reflexivity|]. split; [reflexivity|]. split; [constructor|].
    split; [subst names shapes; simpl; rewrite difference_disjoint_L
              by apply disjoint_empty_l; reflexivity|].
    split; [intros k r Hk Hk'; congruence|].
    intros k1 k2 r Hk1 _ Hk1' _. congruence.
  - simpl in Hrun. apply bind_Ok in Hrun as (self1 & Hstep & Hrest).
    apply add_collision_object_Some in Hstep
      as (f & element & mesh & mat & cm0 & _ & _ & _ & Hcm0 & Hcm1 & Hm1 & Hcase).
    destruct (IH _ _ Hrest)
      as (entries & new & Hcm' & Hheap' & Hsub' & HF' & Hcount' & Hrange' & Hinj').
    clear IH Hrest.
    assert (Hshapes : shapes = shape :: omap (λ shape, shape) l) by reflexivity.
    assert (Hnames : names
              = {[mesh_name shape]}
                  ∪ list_to_set (mesh_name <$> omap (λ shape, shape) l))
      by reflexivity.
    assert (Hmesh' : meshes_of ab self' !! mesh_name shape = Some mesh).
    { eapply lookup_weaken; eassumption. }
    exists ((guid shape, mesh, mat) :: entries).
    destruct Hcase as [(Hhit & Hheap1 & Hmeshes1)|(Hmiss & Hmesh & (m & _ & Hheap1) & Hmeshes1)].
    + exists new. rewrite Hmeshes1, Hheap1 in *.
      split; [intros cm Hcm; rewrite (Hcm' _ Hcm1), <- app_assoc; simpl; congruence|].
      split; [exact Hheap'|]. split; [exact Hsub'|].
      split; [rewrite Hshapes; constructor; [split; [reflexivity|exact Hmesh']|exact HF']|].
      split; [|split; assumption].
      rewrite Hcount', Hnames. f_equal.
      assert (Hin : mesh_name shape ∈ dom (meshes_of ab self))
        by (apply elem_of_dom; eauto).
      clear -Hin. set_solver.
    + exists (m :: new).
      assert (Hlen1 : length (heap self1) = S (length (heap self)))
        by (rewrite Hheap1, length_app; simpl; lia).
      assert (Hlen' : length (heap self') = length (heap self1) + length new)
        by (rewrite Hheap', length_app; reflexivity).
      assert (Hsub1 : meshes_of ab self ⊆ meshes_of ab self1)
        by (rewrite Hmeshes1; apply insert_subseteq; exact Hmiss).
      assert (Hnew1 : ∀ k, k ≠ mesh_name shape → meshes_of ab self !! k = None →
                           meshes_of ab self1 !! k = None).
      { intros k Hne Hk. rewrite Hmeshes1, lookup_insert_ne by congruence. exact Hk. }
      split; [intros cm Hcm; rewrite (Hcm' _ Hcm1), <- app_assoc; simpl; congruence|].
      split; [rewrite Hheap', Hheap1, <- app_assoc; reflexivity|].
      split; [etrans; eassumption|].
      split; [rewrite Hshapes; constructor; [split; [reflexivity|exact Hmesh']|exact HF']|].
      split; [|split].
      * simpl. rewrite Hcount', Hnames, Hmeshes1, dom_insert_L.
        assert (Hnotin : mesh_name shape ∉ dom (meshes_of ab self))
          by (apply not_elem_of_dom; exact Hmiss).
        generalize (list_to_set (mesh_name <$> omap (λ shape, shape) l) : gset string).
        intros N.
        replace (({[mesh_name shape]} ∪ N) ∖ dom (meshes_of ab self))
          with ({[mesh_name shape]}
                  ∪ N ∖ ({[mesh_name shape]} ∪ dom (meshes_of ab self)))
          by (apply set_eq; intros x; set_unfold;
              destruct (decide (x = mesh_name shape)); subst; tauto).
        rewrite (size_union ({[mesh_name shape]} : gset string)), size_singleton;
          [reflexivity|].
        apply disjoint_singleton_l. rewrite elem_of_difference, elem_of_union.
        intros [_ Hno]. apply Hno. left. apply elem_of_singleton. reflexivity.
      * intros k r Hk Hk0.
        destruct (decide (k = mesh_name shape)) as [->|Hne].
        -- assert (r = mesh) by congruence. lia.
        -- specialize (Hrange' k r Hk (Hnew1 k Hne Hk0)). lia.
      * intros k1 k2 r Hk1 Hk2 Hk1' Hk2'.
        destruct (decide (k1 = mesh_name shape)) as [->|Hne1];
          destruct (decide (k2 = mesh_name shape)) as [->|Hne2]; [reflexivity| | |].
        -- assert (r = mesh) by congruence.
           specialize (Hrange' k2 r Hk2 (Hnew1 k2 Hne2 Hk2')). lia.
        -- assert (r = mesh) by congruence.
           specialize (Hrange' k1 r Hk1 (Hnew1 k1 Hne1 Hk1')). lia.
        -- apply (Hinj' k1 k2 r); auto.
  - simpl in Hrun. apply (IH _ _ Hrun).
Qed.

(** C4. One side's build, started with an empty cache: every delivered shape
    gets a scene entry whose mesh is the one cached under its geometry id,
    two entries refer to the same [Mesh] object exactly when their shapes
    have the same geometry id, and the number of [Mesh] objects created is
    the number of distinct geometry ids.  In particular a stream whose
    shapes all share one geometry id creates exactly one [Mesh], however
    many shapes there are. *)
Theorem mesh_built_once_per_geometry ab self self' f cm :
  model_of ab self = Ok f →
  initialize (geom_iterator f) = true →
  meshes_of ab self = ∅ →
  cm_of ab self = Ok cm →
  add_collision_objects ab self = Ok self' →
  let shapes := delivered (geom_iterator f) in
  ∃ entries,
    cm_of ab self' = Ok (cm ++ entries)
    ∧ (∀ i s, shapes !! i = Some s →
         ∃ r mat, entries !! i = Some (guid s, r, mat)
                  ∧ meshes_of ab self' !! mesh_name s = Some r
                  ∧ length (heap self) ≤ r < length (heap self'))
    ∧ (∀ i j s1 s2 l1 r1 m1 l2 r2 m2,
         shapes !! i = Some s1 → shapes !! j = Some s2 →
         entries !! i = Some (l1, r1, m1) → entries !! j = Some (l2, r2, m2) →
         (id (geometry s1) = id (geometry s2) ↔ r1 = r2))
    ∧ length (heap self') = length (heap self) + size (geometry_ids shapes)
    ∧ (∀ g, shapes ≠ [] → (∀ s, s ∈ shapes → id (geometry s) = g) →
            length (heap self') = S (length (heap self))).
Proof.
  intros Hf Hinit Hempty Hcm Hrun shapes.
  unfold add_collision_objects in Hrun. rewrite Hf in Hrun. simpl in Hrun.
  rewrite Hinit in Hrun. simpl in Hrun. rewrite consume_for_each in Hrun.
  apply add_collision_object_run in Hrun
    as (entries & new & Hcm' & Hheap & _ & HF & Hcount & Hrange & Hinj).
  fold (delivered (geom_iterator f)) in HF, Hcount. fold shapes in HF, Hcount.
  rewrite Hempty in *.
  assert (Hentry : ∀ i s, shapes !! i = Some s →
            ∃ r mat, entries !! i = Some (guid s, r, mat)
                     ∧ meshes_of ab self' !! mesh_name s = Some r
                     ∧ length (heap self) ≤ r < length (heap self')).
  { intros i s Hs.
    destruct (Forall2_lookup_l _ _ _ _ _ HF Hs) as ([[lbl r] mat] & He & Hlbl & Hr).
    simpl in *. subst lbl. exists r, mat.
    split; [exact He|]. split; [exact Hr|].
    apply (Hrange _ _ Hr). apply lookup_empty. }
  assert (Hsize : length (heap self')
                  = length (heap self) + size (geometry_ids shapes)).
  { rewrite Hheap, length_app, Hcount, dom_empty_L, difference_empty_L.
    rewrite size_mesh_names. reflexivity. }
  exists entries.
  split; [exact (Hcm' _ Hcm)|]. split; [exact Hentry|]. split; [|split].
  - intros i j s1 s2 l1 r1 m1 l2 r2 m2 Hs1 Hs2 He1 He2.
    destruct (Hentry _ _ Hs1) as (r1' & mat1 & He1' & Hr1 & _).
    destruct (Hentry _ _ Hs2) as (r2' & mat2 & He2' & Hr2 & _).
    assert (r1' = r1) by congruence. assert (r2' = r2) by congruence. subst.
    split.
    + intros Hid.
      assert (Hname : mesh_name s1 = mesh_name s2)
        by (unfold mesh_name; rewrite Hid; reflexivity).
      congruence.
    + intros <-. apply mesh_name_inj.
      apply (Hinj _ _ r1 Hr1 Hr2); apply lookup_empty.
  - exact Hsize.
  - intros g Hne Hall. rewrite Hsize.
    replace (geometry_ids shapes) with ({[g]} : gset string);
      [rewrite size_singleton; lia|].
    apply set_eq. intros x. unfold geometry_ids.
    rewrite elem_of_singleton, elem_of_list_to_set, list_elem_of_fmap.
    split.
    + intros ->. destruct shapes as [|s l]; [contradiction|].
      exists s. split; [symmetry; apply Hall|]; left.
    + intros (s & -> & Hs). apply Hall, Hs.
Qed.

End MeshCache.

(** ** Comparing binary64 floats *)

Lemma SFcompare_antisym (x y : SpecFloat.spec_float) :
  SpecFloat.SFcompare y x = option_map CompOpp (SpecFloat.SFcompare x y).
Proof.
  destruct x as [sx|sx| |sx mx ex], y as [sy|sy| |sy my ey]; simpl;
    try reflexivity;
    try (destruct sx; reflexivity); try (destruct sy; reflexivity);
    try (destruct sx, sy; reflexivity).
  destruct sx, sy; simpl; try reflexivity.
  - pose proof (Pos.compare_cont_antisym mx my Eq) as Hm. simpl in Hm.
    rewrite (Z.compare_antisym ey ex), <- Hm.
    destruct (ey ?= ex)%Z; simpl; try reflexivity.
  - pose proof (Pos.compare_cont_antisym mx my Eq) as Hm. simpl in Hm.
    rewrite (Z.compare_antisym ey ex), <- Hm.
    destruct (ey ?= ex)%Z; simpl; reflexivity.
Qed.

(** [y <= x] rules out [x < y]. *)
Lemma float_leb_not_ltb (x y : float) :
  (y <=? x)%float = true → (x <? y)%float = false.
Proof.
  rewrite FloatAxioms.leb_spec, FloatAxioms.ltb_spec.
  unfold SpecFloat.SFleb, SpecFloat.SFltb.
  rewrite (SFcompare_antisym (Prim2SF x) (Prim2SF y)).
  destruct (SpecFloat.SFcompare (Prim2SF x) (Prim2SF y)) as [[]|];
    simpl; congruence.
Qed.

(** Without NaN the order is total: not [x < y] gives [y <= x]. *)
Lemma float_not_ltb_leb (x y : float) :
  is_nan x = false → is_nan y = false →
  (x <? y)%float = false → (y <=? x)%float = true.
Proof.
  unfold is_nan. rewrite !FloatAxioms.eqb_spec, FloatAxioms.leb_spec, FloatAxioms.ltb_spec.
  unfold SpecFloat.SFeqb, SpecFloat.SFleb, SpecFloat.SFltb.
  rewrite (SFcompare_antisym (Prim2SF x) (Prim2SF y)).
  intros Hx Hy.
  destruct (Prim2SF x) as [sx|sx| |sx mx ex] eqn:Ex;
    destruct (Prim2SF y) as [sy|sy| |sy my ey] eqn:Ey;
    try discriminate;
    match goal with
    | |- context [SpecFloat.SFcompare ?u ?v] =>
        destruct (SpecFloat.SFcompare u v) as [[]|] eqn:Hc;
          simpl; try congruence; simpl in Hc; try discriminate
    end;
    repeat match goal with
           | s : bool |- _ => destruct s; try discriminate
           end.
Qed.

(** ** The insertion-ordered dictionary *)

Section Dict.
Context {V : Type}.
Implicit Types (d : pydict V) (k : string) (v : V).

Lemma dict_get_set_eq k v d : dict_get k (dict_set k v d) = Some v.
Proof.
  induction d as [|[k' v'] d IH]; simpl.
  - rewrite bool_decide_eq_true_2; reflexivity.
  - destruct (bool_decide (k' = k)) eqn:Hk; simpl.
    + rewrite bool_decide_eq_true_2; reflexivity.
    + rewrite Hk. exact IH.
Qed.

Lemma dict_get_set_ne k k' v d :
  k ≠ k' → dict_get k' (dict_set k v d) = dict_get k' d.
Proof.
  intros Hne. induction d as [|[k0 v0] d IH]; simpl.
  - rewrite bool_decide_eq_false_2; [reflexivity|exact Hne].
  - destruct (bool_decide (k0 = k)) eqn:Hk; simpl.
    + apply bool_decide_eq_true in Hk. subst k0.
      rewrite !bool_decide_eq_false_2 by exact Hne. reflexivity.
    + destruct (bool_decide (k0 = k')); [reflexivity|exact IH].
Qed.

Lemma dict_set_elem k v d (kv : string * V) :
  kv ∈ dict_set k v d → kv = (k, v) ∨ kv ∈ d.
Proof.
  induction d as [|[k0 v0] d IH]; simpl.
  - intros Hin%list_elem_of_singleton. left. exact Hin.
  - destruct (bool_decide (k0 = k)).
    + intros [->|Hin]%elem_of_cons; [left; reflexivity|right; right; exact Hin].
    + intros [->|Hin]%elem_of_cons; [right; left|].
      destruct (IH Hin) as [->|Hd]; [left; reflexivity|right; right; exact Hd].
Qed.

Lemma dict_set_keys k v d :
  ∀ k', k' ∈ (dict_set k v d).*1 → k' = k ∨ k' ∈ d.*1.
Proof.
  intros k' ([k0 v0] & -> & Hin)%list_elem_of_fmap.
  destruct (dict_set_elem _ _ _ _ Hin) as [[= -> ->]|Hd]; [left; reflexivity|].
  right. apply list_elem_of_fmap. exists (k0, v0). auto.
Qed.

Lemma dict_set_NoDup k v d : NoDup d.*1 → NoDup (dict_set k v d).*1.
Proof.
  induction d as [|[k0 v0] d IH]; simpl; intros Hnd.
  - apply NoDup_singleton.
  - apply NoDup_cons in Hnd as [Hk0 Hnd].
    destruct (bool_decide (k0 = k)) eqn:Hk; simpl.
    + apply bool_decide_eq_true in Hk. subst k0.
      apply NoDup_cons. auto.
    + apply bool_decide_eq_false in Hk.
      apply NoDup_cons. split; [|auto].
      intros [->|Hin]%dict_set_keys; [congruence|contradiction].
Qed.

Lemma dict_get_elem k v d : dict_get k d = Some v → (k, v) ∈ d.
Proof.
  induction d as [|[k0 v0] d IH]; simpl; [discriminate|].
  destruct (bool_decide (k0 = k)) eqn:Hk.
  - apply bool_decide_eq_true in Hk. intros [= ->]. subst. left.
  - intros Hget. right. auto.
Qed.

Lemma dict_elem_get k v d : NoDup d.*1 → (k, v) ∈ d → dict_get k d = Some v.
Proof.
  induction d as [|[k0 v0] d IH]; simpl; intros Hnd Hin.
  - apply elem_of_nil in Hin. contradiction.
  - apply NoDup_cons in Hnd as [Hk0 Hnd].
    apply elem_of_cons in Hin as [[= -> ->]|Hin].
    + rewrite bool_decide_eq_true_2; reflexivity.
    + rewrite bool_decide_eq_false_2; [auto|].
      intros ->. apply Hk0. apply list_elem_of_fmap. exists (k, v). auto.
Qed.

End Dict.

(** ** The key of the report *)

Lemma clash_key_dash_free_inj (a1 b1 a2 b2 : string) :
  has_dash a1 = false → has_dash a2 = false →
  clash_key a1 b1 = clash_key a2 b2 → a1 = a2 ∧ b1 = b2.
Proof.
  unfold clash_key. revert a2.
  induction a1 as [|c1 a1 IH]; intros [|c2 a2]; cbn; intros H1 H2 Heq.
  - injection Heq as Heq. subst. auto.
  - injection Heq as Hc _. subst c2.
    rewrite bool_decide_eq_true_2 in H2 by reflexivity. discriminate.
  - injection Heq as Hc _. subst c1.
    rewrite bool_decide_eq_true_2 in H1 by reflexivity. discriminate.
  - injection Heq as Hc Heq. subst c2.
    apply orb_false_iff in H1 as [_ H1]. apply orb_false_iff in H2 as [_ H2].
    destruct (IH a2 H1 H2 Heq) as [-> ->]. auto.
Qed.

(** ** Processing the contacts *)

Lemma for_each_app {A S} (body : S → A → result S) (l1 l2 : list A) (s : S) :
  for_each body (l1 ++ l2) s = for_each body l1 s ≫= for_each body l2.
Proof.
  revert s. induction l1 as [|x l1 IH]; intros s; simpl; [reflexivity|].
  destruct (body s x) as [s'|e]; simpl; [apply IH|reflexivity].
Qed.

Section Contacts.
Implicit Types (self : IfcClasher) (c : Contact).

(** One iteration of the loop over the contacts: nothing but [clashes] can
    change, and it changes exactly when the depth is not below the
    tolerance. *)
Lemma clash_contact_Ok self c self' :
  clash_contact self c = Ok self' →
  tolerance self' = tolerance self
  ∧ (((penetration_depth (raw c) <? tolerance self)%float = true ∧ self' = self)
     ∨ ((penetration_depth (raw c) <? tolerance self)%float = false
        ∧ ∃ r, reports r c
               ∧ clashes self' = dict_set (contact_key c) r (clashes self))).
Proof.
  unfold clash_contact, contact_key. destruct (names c) as [a_id b_id] eqn:Hnames.
  intros Hrun.
  apply bind_Ok in Hrun as (fa & _ & Hrun). apply bind_Ok in Hrun as (ea & _ & Hrun).
  apply bind_Ok in Hrun as (fb & _ & Hrun). apply bind_Ok in Hrun as (eb & _ & Hrun).
  destruct (penetration_depth (raw c) <? tolerance self)%float.
  - injection Hrun as <-. split; [reflexivity|]. left. auto.
  - apply bind_Ok in Hrun as (ia & _ & Hrun). apply bind_Ok in Hrun as (ib & _ & Hrun).
    apply bind_Ok in Hrun as (a_name & _ & Hrun).
    apply bind_Ok in Hrun as (b_name & _ & Hrun).
    injection Hrun as <-. split; [reflexivity|]. right. split; [reflexivity|].
    eexists. split; [|reflexivity].
    unfold reports. rewrite Hnames. simpl. auto.
Qed.

Lemma clash_contacts_tolerance (l : list Contact) : ∀ self self',
  for_each clash_contact l self = Ok self' → tolerance self' = tolerance self.
Proof.
  induction l as [|c l IH]; intros self self' Hrun; simpl in Hrun.
  - congruence.
  - apply bind_Ok in Hrun as (self1 & Hstep & Hrun).
    apply clash_contact_Ok in Hstep as [Htol _].
    rewrite (IH _ _ Hrun). exact Htol.
Qed.

(** Every entry of the report was there before or comes from a contact that
    was not below the tolerance. *)
Lemma clash_contacts_origin (l : list Contact) : ∀ self self' k r,
  for_each clash_contact l self = Ok self' →
  (k, r) ∈ clashes self' →
  (k, r) ∈ clashes self
  ∨ ∃ c, c ∈ l ∧ k = contact_key c ∧ reports r c
         ∧ (penetration_depth (raw c) <? tolerance self)%float = false.
Proof.
  induction l as [|c l IH]; intros self self' k r Hrun Hin; simpl in Hrun.
  - injection Hrun as <-. left. exact Hin.
  - apply bind_Ok in Hrun as (self1 & Hstep & Hrun).
    apply clash_contact_Ok in Hstep as [Htol Hstep].
    destruct (IH _ _ _ _ Hrun Hin) as [Hold|(c' & Hc' & Hk & Hr & Hd)].
    + destruct Hstep as [[_ ->]|(Hd & r0 & Hr0 & Hset)]; [left; exact Hold|].
      rewrite Hset in Hold.
      apply dict_set_elem in Hold as [[= -> ->]|Hold]; [|left; exact Hold].
      right. exists c. split; [left|]. auto.
    + right. exists c'. split; [right; exact Hc'|]. rewrite <- Htol. auto.
Qed.

Lemma clash_contacts_NoDup (l : list Contact) : ∀ self self',
  for_each clash_contact l self = Ok self' →
  NoDup (clashes self).*1 → NoDup (clashes self').*1.
Proof.
  induction l as [|c l IH]; intros self self' Hrun Hnd; simpl in Hrun.
  - congruence.
  - apply bind_Ok in Hrun as (self1 & Hstep & Hrun).
    apply (IH _ _ Hrun).
    apply clash_contact_Ok in Hstep as [_ [[_ ->]|(_ & r & _ & ->)]];
      [exact Hnd|apply dict_set_NoDup, Hnd].
Qed.

(** Contacts that are filtered out or go under other keys leave the entry
    under [k] alone. *)
Lemma clash_contacts_untouched (l : list Contact) : ∀ self self' k,
  for_each clash_contact l self = Ok self' →
  (∀ c, c ∈ l → (penetration_depth (raw c) <? tolerance self)%float = false →
        contact_key c ≠ k) →
  dict_get k (clashes self') = dict_get k (clashes self).
Proof.
  induction l as [|c l IH]; intros self self' k Hrun Hother; simpl in Hrun.
  - congruence.
  - apply bind_Ok in Hrun as (self1 & Hstep & Hrun).
    apply clash_contact_Ok in Hstep as [Htol Hstep].
    rewrite (IH _ _ k Hrun).
    + destruct Hstep as [[_ ->]|(Hd & r & _ & ->)]; [reflexivity|].
      apply dict_get_set_ne. apply Hother; [left|exact Hd].
    + intros c' Hc' Hd. apply Hother; [right; exact Hc'|]. congruence.
Qed.

(** The last contact under a key that is not filtered out is the one
    reported under that key. *)
Lemma clash_contacts_last (l1 l2 : list Contact) c self self' :
  for_each clash_contact (l1 ++ c :: l2) self = Ok self' →
  (penetration_depth (raw c) <? tolerance self)%float = false →
  (∀ c', c' ∈ l2 →
         (penetration_depth (raw c') <? tolerance self)%float = false →
         contact_key c' ≠ contact_key c) →
  ∃ r, dict_get (contact_key c) (clashes self') = Some r ∧ reports r c.
Proof.
  intros Hrun Hd Hlater. rewrite for_each_app in Hrun.
  apply bind_Ok in Hrun as (self1 & H1 & Hrun). simpl in Hrun.
  apply bind_Ok in Hrun as (self2 & Hstep & Hrun).
  pose proof (clash_contacts_tolerance _ _ _ H1) as Htol1.
  apply clash_contact_Ok in Hstep as [Htol2 Hstep].
  rewrite Htol1 in Hstep. destruct Hstep as [[Hd' _]|(_ & r & Hr & Hset)]; [congruence|].
  exists r. split; [|exact Hr].
  rewrite (clash_contacts_untouched _ _ _ _ Hrun).
  - rewrite Hset. apply dict_get_set_eq.
  - intros c' Hc' Hd'. apply Hlater; [exact Hc'|]. congruence.
Qed.

End Contacts.

(** ** The tolerance filter *)

(** C2 (amended). A contact is left out of the report exactly when its depth
    is strictly below the tolerance [0.01]; otherwise, and so whenever
    [0.01 <= depth], it is entered under its key.  Every record of the final
    report has a depth that is not below [0.01]: it is [>= 0.01] unless it
    is NaN, which compares false with every number. *)
Theorem tolerance_filter :
  (∀ self c self',
     tolerance self = 0.01%float → clash_contact self c = Ok self' →
     (((penetration_depth (raw c) <? 0.01)%float = true ∧ self' = self)
      ∨ ((penetration_depth (raw c) <? 0.01)%float = false
         ∧ ∃ r, reports r c
                ∧ dict_get (contact_key c) (clashes self') = Some r))
     ∧ ((0.01 <=? penetration_depth (raw c))%float = true →
        (penetration_depth (raw c) <? 0.01)%float = false))
  ∧ (∀ contacts self self' k r,
       tolerance self = 0.01%float → clashes self = [] →
       for_each clash_contact contacts self = Ok self' →
       (k, r) ∈ clashes self' →
       (rec_penetration_depth r <? 0.01)%float = false
       ∧ (is_nan (rec_penetration_depth r) = false →
          (0.01 <=? rec_penetration_depth r)%float = true)).
Proof.
  split.
  - intros self c self' Htol Hstep.
    apply clash_contact_Ok in Hstep as [_ Hstep]. rewrite Htol in Hstep.
    split; [|apply float_leb_not_ltb].
    destruct Hstep as [Hout|(Hd & r & Hr & Hset)]; [left; exact Hout|].
    right. split; [exact Hd|]. exists r. split; [exact Hr|].
    rewrite Hset. apply dict_get_set_eq.
  - intros contacts self self' k r Htol Hempty Hrun Hin.
    destruct (clash_contacts_origin _ _ _ _ _ Hrun Hin)
      as [Hold|(c & _ & _ & Hr & Hd)].
    + rewrite Hempty in Hold. apply elem_of_nil in Hold. contradiction.
    + destruct Hr as (_ & _ & _ & _ & ->). rewrite Htol in Hd.
      split; [exact Hd|]. intros Hnan.
      apply float_not_ltb_leb; [exact Hnan|reflexivity|exact Hd].
Qed.

(** ** One record per key *)

(** C3. The report never holds two records for one ordered pair of labels,
    and of the contacts that share a key and are not filtered out, the last
    one processed is the one the report holds. *)
Theorem one_record_per_key (contacts : list Contact) (self self' : IfcClasher) :
  clashes self = [] →
  for_each clash_contact contacts self = Ok self' →
  NoDup (clashes self').*1
  ∧ (∀ i j k1 r1 k2 r2,
       clashes self' !! i = Some (k1, r1) → clashes self' !! j = Some (k2, r2) →
       rec_a_global_id r1 = rec_a_global_id r2 →
       rec_b_global_id r1 = rec_b_global_id r2 → i = j)
  ∧ (∀ l1 c l2,
       contacts = l1 ++ c :: l2 →
       (penetration_depth (raw c) <? tolerance self)%float = false →
       (∀ c', c' ∈ l2 →
              (penetration_depth (raw c') <? tolerance self)%float = false →
              contact_key c' ≠ contact_key c) →
       ∃ r, dict_get (contact_key c) (clashes self') = Some r ∧ reports r c).
Proof.
  intros Hempty Hrun.
  assert (Hnd : NoDup (clashes self').*1).
  { apply (clash_contacts_NoDup _ _ _ Hrun). rewrite Hempty. constructor. }
  assert (Hkey : ∀ i k r, clashes self' !! i = Some (k, r) →
                          k = clash_key (rec_a_global_id r) (rec_b_global_id r)).
  { intros i k r Hi. apply list_elem_of_lookup_2 in Hi.
    destruct (clash_contacts_origin _ _ _ _ _ Hrun Hi)
      as [Hold|(c & _ & -> & (-> & -> & _) & _)]; [|reflexivity].
    rewrite Hempty in Hold. apply elem_of_nil in Hold. contradiction. }
  split; [exact Hnd|]. split.
  - intros i j k1 r1 k2 r2 Hi Hj Ha Hb.
    apply (NoDup_lookup _ i j k1 Hnd).
    + rewrite list_lookup_fmap, Hi. reflexivity.
    + rewrite list_lookup_fmap, Hj. simpl.
      rewrite (Hkey _ _ _ Hi), (Hkey _ _ _ Hj), Ha, Hb. reflexivity.
  - intros l1 c l2 -> Hd Hlater. eapply clash_contacts_last; eassumption.
Qed.

(** C9. The key is the A-label, a dash and the B-label.  Pairs of labels
    without a dash in the A-label never share a key, so distinct pairs
    occupy distinct entries; labels with a dash can: two different pairs
    then go under one key, and the report holds the later contact's
    record, which is not a record of the earlier pair. *)
Theorem key_separator :
  (∀ c, contact_key c = (names c).1 +:+ "-" +:+ (names c).2)
  ∧ (∀ c1 c2,
       has_dash (names c1).1 = false → has_dash (names c1).2 = false →
       has_dash (names c2).1 = false → has_dash (names c2).2 = false →
       names c1 ≠ names c2 → contact_key c1 ≠ contact_key c2)
  ∧ (∃ c1 c2, names c1 ≠ names c2 ∧ contact_key c1 = contact_key c2)
  ∧ (∀ l1 c1 l2 c2 l3 self self',
       names c1 ≠ names c2 → contact_key c1 = contact_key c2 →
       (penetration_depth (raw c2) <? tolerance self)%float = false →
       (∀ c', c' ∈ l3 →
              (penetration_depth (raw c') <? tolerance self)%float = false →
              contact_key c' ≠ contact_key c2) →
       for_each clash_contact (l1 ++ c1 :: l2 ++ c2 :: l3) self = Ok self' →
       ∃ r, dict_get (contact_key c1) (clashes self') = Some r
            ∧ reports r c2 ∧ ¬ reports r c1).
Proof.
  split; [reflexivity|]. split; [|split].
  - intros c1 c2 Ha1 _ Ha2 _ Hne Hkey. apply Hne.
    destruct (clash_key_dash_free_inj _ _ _ _ Ha1 Ha2 Hkey) as [Ha Hb].
    destruct (names c1), (names c2). simpl in *. congruence.
  - exists (Sample.touching "lvl-1" "wall" 1), (Sample.touching "lvl" "1-wall" 1).
    split; [discriminate|reflexivity].
  - intros l1 c1 l2 c2 l3 self self' Hne Hkey Hd Hlater Hrun.
    replace (l1 ++ c1 :: l2 ++ c2 :: l3) with ((l1 ++ c1 :: l2) ++ c2 :: l3) in Hrun
      by (rewrite <- app_assoc; reflexivity).
    destruct (clash_contacts_last _ _ _ _ _ Hrun Hd Hlater) as (r & Hget & Hr).
    exists r. rewrite Hkey. split; [exact Hget|]. split; [exact Hr|].
    intros (Ha1 & Hb1 & _). destruct Hr as (Ha2 & Hb2 & _). apply Hne.
    destruct (names c1), (names c2). simpl in *. congruence.
Qed.

(** ** Searching the decomposition hierarchy *)

(** A loop that only ever extends its accumulator collects what each
    iteration contributes. *)
Lemma for_each_collect {A B} (body : list B → A → result (list B)) (l : list A)
    (R : A → B → Prop) :
  (∀ x, x ∈ l → ∀ acc, ∃ out, body acc x = Ok out
                               ∧ ∀ y, y ∈ out ↔ y ∈ acc ∨ R x y) →
  ∀ acc, ∃ res, for_each body l acc = Ok res
                ∧ ∀ y, y ∈ res ↔ y ∈ acc ∨ ∃ x, x ∈ l ∧ R x y.
Proof.
  induction l as [|x l IH]; intros Hbody acc; simpl.
  - exists acc. split; [reflexivity|]. intros y. split; [auto|].
    intros [Hy|(x & Hx & _)]; [exact Hy|]. apply elem_of_nil in Hx. contradiction.
  - destruct (Hbody x (list_elem_of_here _ _) acc) as (out & -> & Hout). simpl.
    destruct (IH (λ z Hz, Hbody z (list_elem_of_further _ _ _ Hz)) out)
      as (res & -> & Hres).
    exists res. split; [reflexivity|]. intros y. rewrite Hres, Hout. split.
    + intros [[Hy|Hy]|(z & Hz & Hy)]; [auto| |].
      * right. exists x. split; [left|exact Hy].
      * right. exists z. split; [right; exact Hz|exact Hy].
    + intros [Hy|(z & [->|Hz]%elem_of_cons & Hy)]; [auto|auto|].
      right. exists z. auto.
Qed.

Lemma NoDup_within_file (f : ifc_file) (l : list nat) :
  NoDup l → (∀ x, x ∈ l → is_Some (f !! x)) → length l ≤ size f.
Proof.
  intros Hnd Hin. rewrite <- (size_dom f), <- (size_list_to_set (C:=gset nat) l Hnd).
  apply subseteq_size. intros x Hx%elem_of_list_to_set.
  apply elem_of_dom, Hin, Hx.
Qed.

Section Decomposition.
Context `{Collaborators}.
Implicit Types (f : ifc_file) (cls : string).

Lemma decomposes_first_step f x y :
  tc (decomposes f) x y →
  ∃ z, decomposes f x z ∧ (y = z ∨ tc (decomposes f) z y).
Proof.
  intros Htc. destruct Htc as [x y Hxy|x z y Hxz Hzy]; [exists y|exists z]; auto.
Qed.

(** The search run with [depth] frames from [element], whose ancestors on
    the call stack are [stack]: with more frames left than the file has
    entities beyond the stack, it returns, and it returns the matching
    descendants. *)
Lemma find_decomposed_ifc_class_stack f cls :
  well_typed f → acyclic f →
  ∀ depth element stack,
    (∃ c g n p rels, f !! element = Some (IfcRoot c g n p rels)) →
    NoDup (element :: stack) →
    (∀ z, z ∈ stack → is_Some (f !! z) ∧ tc (decomposes f) z element) →
    size f < depth + length (element :: stack) →
    ∃ results, find_decomposed_ifc_class depth f element cls = Ok results
               ∧ ∀ y, y ∈ results ↔ matching_descendant f cls element y.
Proof.
  intros Hwt Hacyc. induction depth as [|depth IH];
    intros element stack (c & g & n & p & rels & Hel) Hnd Hstack Hsize.
  - exfalso.
    assert (length (element :: stack) ≤ size f); [|lia].
    apply NoDup_within_file; [exact Hnd|].
    intros z [->|Hz]%elem_of_cons; [eauto|apply Hstack, Hz].
  - simpl. rewrite Hel. simpl.
    destruct (decide (rels = [])) as [->|Hrels].
    + rewrite bool_decide_eq_true_2 by reflexivity. exists []. split; [reflexivity|].
      intros y. split; [intros Hy; apply elem_of_nil in Hy; contradiction|].
      intros [Htc _]. apply decomposes_first_step in Htc as (z & Hz & _).
      destruct Hz as (? & ? & ? & ? & rels' & rel & parts & Hel' & Hrel & _).
      rewrite Hel in Hel'. injection Hel' as <- <- <- <- <-.
      apply elem_of_nil in Hrel. contradiction.
    + rewrite bool_decide_eq_false_2 by exact Hrels.
      set (Rp := λ part y, (y = part ∧ ∃ e, f !! part = Some e ∧ is_a e cls = true)
                           ∨ matching_descendant f cls part y).
      set (Rr := λ rel y, ∃ parts, f !! rel = Some (IfcRelAggregates parts)
                                   ∧ ∃ part, part ∈ parts ∧ Rp part y).
      match goal with
      | |- ∃ results, for_each ?body rels [] = Ok results ∧ _ =>
          destruct (for_each_collect body rels Rr) with (acc := @nil nat)
            as (res & Hres & Hmem)
      end.
      { intros rel Hrel acc.
        destruct (Hwt _ _ _ _ _ _ Hel rel Hrel) as (parts & Hparts & Hroots).
        simpl. rewrite Hparts. simpl.
        match goal with
        | |- ∃ out, for_each ?body parts acc = Ok out ∧ _ =>
            destruct (for_each_collect body parts Rp) with (acc := acc)
              as (out & Hout & Hmem)
        end.
        { intros part Hpart acc'.
          destruct (Hroots part Hpart) as (c' & g' & n' & p' & rels' & Hp).
          assert (Hstep : decomposes f element part).
          { exists c, g, n, p, rels, rel, parts. auto. }
          destruct (IH part (element :: stack)) as (sub & Hsub & Hsubmem).
          - eauto 10.
          - apply NoDup_cons. split; [|exact Hnd].
            intros [->|Hz]%elem_of_cons.
            + apply (Hacyc element). apply tc_once, Hstep.
            + apply (Hacyc part). eapply tc_r; [apply Hstack, Hz|exact Hstep].
          - intros z [->|Hz]%elem_of_cons.
            + split; [eauto|apply tc_once, Hstep].
            + split; [apply Hstack, Hz|].
              eapply tc_r; [apply Hstack, Hz|exact Hstep].
          - simpl in *. lia.
          - simpl. rewrite Hp. simpl. rewrite Hsub. simpl.
            eexists. split; [reflexivity|]. intros y.
            rewrite elem_of_app, Hsubmem. unfold Rp.
            destruct (is_a (IfcRoot c' g' n' p' rels') cls) eqn:Hisa.
            + rewrite elem_of_app, list_elem_of_singleton. split.
              * intros [[Hy| ->]|Hy]; [auto| |auto].
                right. left. split; [reflexivity|]. eauto.
              * intros [Hy|[[-> _]|Hy]]; auto.
            + split; [intros [Hy|Hy]; auto|].
              intros [Hy|[[-> (e & He & Hisa')]|Hy]]; [auto| |auto].
              rewrite Hp in He. injection He as <-. congruence. }
        exists out. split; [exact Hout|]. intros y. rewrite Hmem.
        unfold Rr. split.
        - intros [Hy|Hy]; [auto|]. right. exists parts. auto.
        - intros [Hy|(parts' & Hparts' & Hy)]; [auto|].
          rewrite Hparts in Hparts'. injection Hparts' as <-. auto. }
      exists res. split; [exact Hres|]. intros y. rewrite Hmem.
      unfold matching_descendant. split.
      * intros [Hy|(rel & Hrel & parts & Hparts & part & Hpart & Hy)];
          [apply elem_of_nil in Hy; contradiction|].
        assert (Hstep : decomposes f element part).
        { exists c, g, n, p, rels, rel, parts. auto. }
        destruct Hy as [[-> He]|[Htc He]].
        -- split; [apply tc_once, Hstep|exact He].
        -- split; [eapply tc_l; eassumption|exact He].
      * intros [Htc He]. right.
        apply decomposes_first_step in Htc as (z & Hz & Hy).
        destruct Hz as (? & ? & ? & ? & rels' & rel & parts & Hel' & Hrel & Hparts & Hpart).
        rewrite Hel in Hel'. injection Hel' as <- <- <- <- <-.
        exists rel. split; [exact Hrel|]. exists parts. split; [exact Hparts|].
        exists z. split; [exact Hpart|].
        destruct Hy as [->|Hy]; [left; auto|right; split; assumption].
Qed.

(** C6. On a file whose decomposition relation is acyclic, the search from
    an element returns, provided the interpreter leaves it at least as many
    frames as the file has entities, and what it returns is every element
    of the class below the starting element, at whatever depth, and nothing
    else. *)
Theorem find_decomposed_ifc_class_complete f cls (depth project : nat) :
  well_typed f → acyclic f →
  (∃ c g n p rels, f !! project = Some (IfcRoot c g n p rels)) →
  size f ≤ depth →
  ∃ results, find_decomposed_ifc_class depth f project cls = Ok results
             ∧ ∀ y, y ∈ results ↔ matching_descendant f cls project y.
Proof.
  intros Hwt Hacyc Hproject Hdepth.
  apply (find_decomposed_ifc_class_stack f cls Hwt Hacyc depth project []).
  - exact Hproject.
  - apply NoDup_singleton.
  - intros z Hz. apply elem_of_nil in Hz. contradiction.
  - simpl. lia.
Qed.

End Decomposition.

(** ** Placement normalisation *)

Lemma Ok_bind {A B} (k : A → result B) (x : A) : Ok x ≫= k = k x.
Proof. reflexivity. Qed.

Lemma result_bind_ext {A B} (k1 k2 : A → result B) (r : result A) :
  (∀ x, k1 x = k2 x) → r ≫= k1 = r ≫= k2.
Proof. intros Hk. destruct r; simpl; [apply Hk|reflexivity]. Qed.

Lemma for_each_ext {A S} (body1 body2 : S → A → result S) (l : list A) (s : S) :
  (∀ s x, body1 s x = body2 s x) → for_each body1 l s = for_each body2 l s.
Proof.
  intros Hbody. revert s. induction l as [|x l IH]; intros s; simpl; [reflexivity|].
  rewrite Hbody. apply result_bind_ext, IH.
Qed.

Lemma similar_lookup (f g : ifc_file) (i : nat) :
  similar f g → skeleton <$> f !! i = skeleton <$> g !! i.
Proof. intros Hsim. rewrite <- !lookup_fmap, Hsim. reflexivity. Qed.

Lemma similar_refl (f : ifc_file) : similar f f.
Proof. reflexivity. Qed.

Lemma skeleton_getters (e e' : entity) :
  skeleton e = skeleton e' →
  get_ObjectPlacement e = get_ObjectPlacement e'
  ∧ get_IsDecomposedBy e = get_IsDecomposedBy e'
  ∧ get_RelatedObjects e = get_RelatedObjects e'
  ∧ get_RelativePlacement e = get_RelativePlacement e'
  ∧ get_Location e = get_Location e'
  ∧ get_Axis e = get_Axis e'
  ∧ get_RefDirection e = get_RefDirection e'
  ∧ class_name e = class_name e'.
Proof.
  destruct e, e'; simpl; intros Heq; try discriminate;
    try (injection Heq as; subst); repeat split; reflexivity.
Qed.

(** Reading through a reference gives the same in similar files, as long as
    what is done with the entity does not look at its numbers. *)
Lemma deref_similar {X} (f g : ifc_file) (r : option nat)
    (kf kg : entity → result X) :
  similar f g →
  (∀ e e', skeleton e = skeleton e' → kf e = kg e') →
  deref f r ≫= kf = deref g r ≫= kg.
Proof.
  intros Hsim Hk. destruct r as [i|]; simpl; [|reflexivity].
  pose proof (similar_lookup f g i Hsim) as Hi.
  destruct (f !! i) as [e|], (g !! i) as [e'|]; simpl in *;
    try discriminate; [|reflexivity].
  apply Hk. congruence.
Qed.

Lemma placement_attribute_similar (f g : ifc_file) (element : nat)
    (attribute : entity → result (option nat)) :
  similar f g →
  (∀ e e', skeleton e = skeleton e' → attribute e = attribute e') →
  placement_attribute attribute f element = placement_attribute attribute g element.
Proof.
  intros Hsim Hattr. unfold placement_attribute.
  apply deref_similar; [exact Hsim|]. intros e e' He.
  destruct (skeleton_getters e e' He) as (-> & _).
  apply result_bind_ext. intros op.
  apply deref_similar; [exact Hsim|]. intros lp lp' Hlp.
  destruct (skeleton_getters lp lp' Hlp) as (_ & _ & _ & -> & _).
  apply result_bind_ext. intros rp.
  apply deref_similar; [exact Hsim|]. exact Hattr.
Qed.

Lemma overlays_similar (T f : ifc_file) : overlays T f → similar f (T ∪ f).
Proof.
  unfold overlays, similar. intros HT.
  rewrite map_fmap_union. symmetry. apply map_subseteq_union, HT.
Qed.

Lemma similar_union (T f g : ifc_file) : similar f g → similar (T ∪ f) (T ∪ g).
Proof. unfold similar. intros Hsim. rewrite !map_fmap_union, Hsim. reflexivity. Qed.

Lemma replays_compose (run1 run2 : ifc_file → result ifc_file) (f f1 f2 : ifc_file) :
  replays run1 f f1 → replays run2 f1 f2 → replays (λ h, run1 h ≫= run2) f f2.
Proof.
  intros (T1 & -> & HT1 & Hrun1) (T2 & -> & HT2 & Hrun2).
  exists (T2 ∪ T1). split; [apply map_union_assoc|]. split.
  - unfold overlays in *. rewrite map_fmap_union. apply map_union_least.
    + pose proof (overlays_similar T1 f HT1) as Hsim. unfold similar in Hsim.
      rewrite Hsim. exact HT2.
    + exact HT1.
  - intros g Hsim. rewrite (Hrun1 g Hsim). simpl.
    rewrite (Hrun2 (T1 ∪ g)); [|apply similar_union, Hsim].
    rewrite map_union_assoc. reflexivity.
Qed.

Lemma replays_nothing (f : ifc_file) : replays Ok f f.
Proof.
  exists ∅. split; [symmetry; apply map_empty_union|]. split.
  - unfold overlays. rewrite fmap_empty. apply map_empty_subseteq.
  - intros g _. rewrite map_empty_union. reflexivity.
Qed.

Lemma replays_insert (run : ifc_file → result ifc_file) (f : ifc_file)
    (i : nat) (v : entity) :
  skeleton <$> f !! i = Some (skeleton v) →
  (∀ g, similar f g → run g = Ok (<[i := v]> g)) →
  replays run f (<[i := v]> f).
Proof.
  intros Hi Hrun. exists {[i := v]}.
  split; [apply insert_union_singleton_l|]. split.
  - unfold overlays. rewrite map_fmap_singleton.
    apply map_singleton_subseteq_l. rewrite lookup_fmap. exact Hi.
  - intros g Hsim. rewrite (Hrun g Hsim), insert_union_singleton_l. reflexivity.
Qed.


Lemma set_Coordinates_similar (f g : ifc_file) (loc : option nat) (v : list float)
    (f' : ifc_file) :
  similar f g → set_Coordinates f loc v = Ok f' →
  ∃ i, loc = Some i
       ∧ f' = <[i := IfcCartesianPoint v]> f
       ∧ skeleton <$> f !! i = Some (skeleton (IfcCartesianPoint v))
       ∧ set_Coordinates g loc v = Ok (<[i := IfcCartesianPoint v]> g).
Proof.
  intros Hsim Hset. destruct loc as [i|]; [|discriminate]. simpl in *.
  pose proof (similar_lookup f g i Hsim) as Hi.
  destruct (f !! i) as [[]|] eqn:Hfi; try discriminate. injection Hset as <-.
  exists i. split; [reflexivity|]. split; [reflexivity|].
  split; [rewrite Hfi; reflexivity|].
  destruct (g !! i) as [[]|]; try discriminate. reflexivity.
Qed.

Lemma set_DirectionRatios_similar (f g : ifc_file) (d : option nat) (v : list float)
    (f' : ifc_file) :
  similar f g → set_DirectionRatios f d v = Ok f' →
  ∃ i, d = Some i
       ∧ f' = <[i := IfcDirection v]> f
       ∧ skeleton <$> f !! i = Some (skeleton (IfcDirection v))
       ∧ set_DirectionRatios g d v = Ok (<[i := IfcDirection v]> g).
Proof.
  intros Hsim Hset. destruct d as [i|]; [|discriminate]. simpl in *.
  pose proof (similar_lookup f g i Hsim) as Hi.
  destruct (f !! i) as [[]|] eqn:Hfi; try discriminate. injection Hset as <-.
  exists i. split; [reflexivity|]. split; [reflexivity|].
  split; [rewrite Hfi; reflexivity|].
  destruct (g !! i) as [[]|]; try discriminate. reflexivity.
Qed.

Lemma set_placement_coordinates_replays (f f' : ifc_file) (element : nat)
    (v : list float) :
  set_placement_coordinates f element v = Ok f' →
  replays (λ h, set_placement_coordinates h element v) f f'.
Proof.
  unfold set_placement_coordinates. intros Hrun.
  apply bind_Ok in Hrun as (loc & Hloc & Hset).
  destruct (set_Coordinates_similar f f loc v f' (similar_refl f) Hset)
    as (i & -> & -> & Hi & _).
  apply replays_insert; [exact Hi|]. intros g Hsim.
  rewrite <- (placement_attribute_similar f g element get_Location Hsim), Hloc.
  - destruct (set_Coordinates_similar f g _ v _ Hsim Hset)
      as (i' & [= <-] & _ & _ & Hg). exact Hg.
  - intros e e' He. apply (skeleton_getters e e' He).
Qed.

Lemma patch_direction_replays (attribute : entity → result (option nat))
    (f f' : ifc_file) (element : nat) (v : list float) :
  (∀ e e', skeleton e = skeleton e' → attribute e = attribute e') →
  patch_direction attribute f element v = Ok f' →
  replays (λ h, patch_direction attribute h element v) f f'.
Proof.
  unfold patch_direction. intros Hattr Hrun.
  apply bind_Ok in Hrun as (d & Hd & Hrun).
  assert (Hread : ∀ g, similar f g → placement_attribute attribute g element = Ok d).
  { intros g Hsim.
    rewrite <- (placement_attribute_similar f g element attribute Hsim Hattr).
    exact Hd. }
  destruct (bool_decide (is_Some d)) eqn:Hsome.
  - apply bind_Ok in Hrun as (d' & Hd' & Hset).
    assert (d' = d) by congruence. subst d'.
    destruct (set_DirectionRatios_similar f f d v f' (similar_refl f) Hset)
      as (i & -> & -> & Hi & _).
    apply replays_insert; [exact Hi|]. intros g Hsim.
    rewrite (Hread g Hsim), Ok_bind, Hsome, Ok_bind.
    destruct (set_DirectionRatios_similar f g _ v _ Hsim Hset)
      as (i' & [= <-] & _ & _ & Hg). exact Hg.
  - injection Hrun as <-.
    destruct (replays_nothing f) as (T & HT & Hov & Hrun).
    exists T. split; [exact HT|]. split; [exact Hov|].
    intros g Hsim. rewrite (Hread g Hsim), Ok_bind, Hsome.
    apply (Hrun g Hsim).
Qed.

Lemma patch_placement_to_origin_replays (f f' : ifc_file) (element : nat) :
  patch_placement_to_origin f element = Ok f' →
  replays (λ h, patch_placement_to_origin h element) f f'.
Proof.
  unfold patch_placement_to_origin. intros Hrun.
  apply bind_Ok in Hrun as (f1 & H1 & Hrun).
  apply bind_Ok in Hrun as (f2 & H2 & H3).
  apply set_placement_coordinates_replays in H1.
  apply patch_direction_replays in H2;
    [|intros e e' He; apply (skeleton_getters e e' He)].
  apply patch_direction_replays in H3;
    [|intros e e' He; apply (skeleton_getters e e' He)].
  exact (replays_compose _ _ _ _ _ H1 (replays_compose _ _ _ _ _ H2 H3)).
Qed.

Lemma patch_elements_replays (elements : list nat) : ∀ f f',
  for_each patch_placement_to_origin elements f = Ok f' →
  replays (for_each patch_placement_to_origin elements) f f'.
Proof.
  induction elements as [|element elements IH]; intros f f' Hrun; simpl in Hrun.
  - injection Hrun as <-. apply replays_nothing.
  - apply bind_Ok in Hrun as (f1 & H1 & Hrun).
    apply patch_placement_to_origin_replays in H1.
    exact (replays_compose _ _ _ _ _ H1 (IH _ _ Hrun)).
Qed.

Lemma replays_similar (run : ifc_file → result ifc_file) (f f' : ifc_file) :
  replays run f f' → similar f f'.
Proof. intros (T & -> & HT & _). apply overlays_similar, HT. Qed.

(** What [patch_direction] leaves behind: nothing changed where the
    attribute is absent, the given ratios in the direction it refers to
    otherwise. *)
Lemma patch_direction_Ok (attribute : entity → result (option nat))
    (f f' : ifc_file) (element : nat) (v : list float) :
  patch_direction attribute f element v = Ok f' →
  (placement_attribute attribute f element = Ok None ∧ f' = f)
  ∨ ∃ d, placement_attribute attribute f element = Ok (Some d)
         ∧ f' = <[d := IfcDirection v]> f.
Proof.
  unfold patch_direction. intros Hrun.
  apply bind_Ok in Hrun as ([d|] & Hd & Hrun); simpl in Hrun.
  - right. rewrite Hd in Hrun. simpl in Hrun.
    destruct (f !! d) as [[]|]; try discriminate.
    injection Hrun as <-. exists d. auto.
  - left. injection Hrun as <-. auto.
Qed.

(** The values one element's placement holds after it has been patched: the
    origin as location, [(1, 0, 0)] as reference direction where there is
    one, and [(0, 0, 1)] as axis where there is one that is not the very
    direction entity used as reference direction. *)
Lemma patch_placement_to_origin_values (f f' : ifc_file) (element : nat) :
  patch_placement_to_origin f element = Ok f' →
  (∃ loc, placement_attribute get_Location f' element = Ok (Some loc)
          ∧ f' !! loc = Some (IfcCartesianPoint [0; 0; 0]%float))
  ∧ (∀ d, placement_attribute get_RefDirection f' element = Ok (Some d) →
          f' !! d = Some (IfcDirection [1; 0; 0]%float))
  ∧ (∀ x, placement_attribute get_Axis f' element = Ok (Some x) →
          placement_attribute get_RefDirection f' element ≠ Ok (Some x) →
          f' !! x = Some (IfcDirection [0; 0; 1]%float)).
Proof.
  unfold patch_placement_to_origin. intros Hrun.
  apply bind_Ok in Hrun as (f1 & H1 & Hrun).
  apply bind_Ok in Hrun as (f2 & H2 & H3).
  assert (Hgetters : ∀ e e', skeleton e = skeleton e' →
            get_Location e = get_Location e' ∧ get_Axis e = get_Axis e'
            ∧ get_RefDirection e = get_RefDirection e').
  { intros e e' He. destruct (skeleton_getters e e' He) as (_ & _ & _ & _ & ? & ? & ? & _).
    auto. }
  pose proof (replays_similar _ _ _ (set_placement_coordinates_replays _ _ _ _ H1)) as S1.
  pose proof (replays_similar _ _ _
                (patch_direction_replays get_Axis _ _ _ _
                   (λ e e' He, proj1 (proj2 (Hgetters e e' He))) H2)) as S2.
  pose proof (replays_similar _ _ _
                (patch_direction_replays get_RefDirection _ _ _ _
                   (λ e e' He, proj2 (proj2 (Hgetters e e' He))) H3)) as S3.
  assert (Hread : ∀ attribute,
            (∀ e e', skeleton e = skeleton e' → attribute e = attribute e') →
            placement_attribute attribute f1 element
            = placement_attribute attribute f' element
            ∧ placement_attribute attribute f2 element
              = placement_attribute attribute f' element
            ∧ placement_attribute attribute f element
              = placement_attribute attribute f' element).
  { intros attribute Hattr.
    rewrite (placement_attribute_similar f f1 element attribute S1 Hattr).
    rewrite (placement_attribute_similar f1 f2 element attribute S2 Hattr).
    rewrite (placement_attribute_similar f2 f' element attribute S3 Hattr). auto. }
  destruct (Hread get_Location (λ e e' He, proj1 (Hgetters e e' He)))
    as (_ & _ & HreadL).
  destruct (Hread get_Axis (λ e e' He, proj1 (proj2 (Hgetters e e' He))))
    as (HreadA & _ & _).
  destruct (Hread get_RefDirection (λ e e' He, proj2 (proj2 (Hgetters e e' He))))
    as (_ & HreadR & _).
  unfold set_placement_coordinates in H1.
  apply bind_Ok in H1 as (loc & Hloc & Hset).
  destruct (set_Coordinates_similar f f loc _ f1 (similar_refl f) Hset)
    as (i & -> & -> & _ & _).
  apply patch_direction_Ok in H2, H3. rewrite HreadA in H2. rewrite HreadR in H3.
  assert (Hpoint : ∀ (h : ifc_file) (d : nat) (v : list float),
                     skeleton <$> h !! i = Some (IfcCartesianPoint []) →
                            skeleton <$> h !! d = Some (IfcDirection []) →
                            (<[d := IfcDirection v]> h) !! i = h !! i).
  { intros h d v Hi Hdir. apply lookup_insert_ne. intros ->. congruence. }
  assert (Hdir : ∀ (h : ifc_file) (d : nat) (v : list float),
                   similar h (<[d := IfcDirection v]> h) →
                          skeleton <$> h !! d = Some (IfcDirection [])).
  { intros h d v Hsim. rewrite (similar_lookup _ _ d Hsim), lookup_insert_eq.
    reflexivity. }
  assert (Hi1 : (<[i := IfcCartesianPoint [0; 0; 0]%float]> f) !! i
                = Some (IfcCartesianPoint [0; 0; 0]%float)) by apply lookup_insert_eq.
  split; [|split].
  - exists i. split; [rewrite <- HreadL; exact Hloc|].
    assert (Hi2 : f2 !! i = Some (IfcCartesianPoint [0; 0; 0]%float)).
    { destruct H2 as [[_ ->]|(d & _ & ->)]; [exact Hi1|].
      rewrite Hpoint; [exact Hi1|rewrite Hi1; reflexivity|].
      apply (Hdir _ d [0; 0; 1]%float), S2. }
    destruct H3 as [[_ ->]|(d & _ & ->)]; [exact Hi2|].
    rewrite Hpoint; [exact Hi2|rewrite Hi2; reflexivity|].
    apply (Hdir _ d [1; 0; 0]%float), S3.
  - intros d Hd. rewrite Hd in H3.
    destruct H3 as [[[=] _]|(d' & [= <-] & ->)]. apply lookup_insert_eq.
  - intros x Hx Hne. rewrite Hx in H2.
    destruct H2 as [[[=] _]|(x' & [= <-] & ->)].
    destruct H3 as [[_ ->]|(d & Hd & ->)]; [apply lookup_insert_eq|].
    rewrite lookup_insert_ne; [apply lookup_insert_eq|].
    intros ->. apply Hne. exact Hd.
Qed.

Section Normalisation.
Context `{Collaborators}.
Implicit Types (f g : ifc_file) (cls : string).

Lemma is_a_skeleton (e e' : entity) cls :
  skeleton e = skeleton e' → is_a e cls = is_a e' cls.
Proof.
  intros He. unfold is_a.
  destruct (skeleton_getters e e' He) as (_ & _ & _ & _ & _ & _ & _ & ->).
  reflexivity.
Qed.

Lemma by_type_similar f g cls : similar f g → by_type f cls = by_type g cls.
Proof.
  assert (Hskel : ∀ h, by_type (skeleton <$> h) cls = by_type h cls).
  { intros h. unfold by_type. rewrite map_to_list_fmap.
    induction (map_to_list h) as [|[i e] l IH]; [reflexivity|].
    cbn [fmap list_fmap List.filter prod_map fst snd].
    rewrite (is_a_skeleton (skeleton e) e) by (destruct e; reflexivity).
    destruct (is_a e cls); cbn [fmap list_fmap fst]; [f_equal|]; exact IH. }
  intros Hsim. rewrite <- (Hskel f), <- (Hskel g), Hsim. reflexivity.
Qed.

Lemma find_decomposed_ifc_class_similar f g cls :
  similar f g → ∀ depth element,
    find_decomposed_ifc_class depth f element cls
    = find_decomposed_ifc_class depth g element cls.
Proof.
  intros Hsim. induction depth as [|depth IH]; intros element; [reflexivity|].
  cbn [find_decomposed_ifc_class].
  apply (deref_similar f g _ _ _ Hsim). intros e e' He.
  destruct (skeleton_getters e e' He) as (_ & -> & _).
  apply result_bind_ext. intros rels.
  destruct (bool_decide (rels = [])); [reflexivity|].
  apply for_each_ext. intros acc rel.
  apply (deref_similar f g _ _ _ Hsim). intros r r' Hr.
  destruct (skeleton_getters r r' Hr) as (_ & _ & -> & _).
  apply result_bind_ext. intros parts.
  apply for_each_ext. intros acc' part.
  apply (deref_similar f g _ _ _ Hsim). intros p p' Hp.
  rewrite (is_a_skeleton p p' cls Hp), IH. reflexivity.
Qed.

Lemma patch_file_replays f f' : patch_file f = Ok f' → replays patch_file f f'.
Proof.
  unfold patch_file. intros Hrun.
  apply bind_Ok in Hrun as (project & Hproject & Hrun).
  apply bind_Ok in Hrun as (sites & Hsites & Hrun).
  apply bind_Ok in Hrun as (f1 & H1 & Hrun).
  apply bind_Ok in Hrun as (buildings & Hbuildings & H2).
  apply patch_elements_replays in H1 as (T1 & -> & HT1 & Hrun1).
  apply patch_elements_replays in H2 as (T2 & -> & HT2 & Hrun2).
  pose proof (overlays_similar T1 f HT1) as Hsim1.
  exists (T2 ∪ T1). split; [apply map_union_assoc|]. split.
  - unfold overlays in *. rewrite map_fmap_union. apply map_union_least.
    + unfold similar in Hsim1. rewrite Hsim1. exact HT2.
    + exact HT1.
  - intros g Hsim.
    rewrite <- (by_type_similar f g _ Hsim), Hproject, Ok_bind.
    rewrite <- (find_decomposed_ifc_class_similar f g _ Hsim), Hsites, Ok_bind.
    rewrite (Hrun1 g Hsim), Ok_bind.
    assert (Hsim' : similar (T1 ∪ f) (T1 ∪ g)) by apply similar_union, Hsim.
    rewrite <- (find_decomposed_ifc_class_similar _ _ _ Hsim'), Hbuildings, Ok_bind.
    rewrite (Hrun2 _ Hsim'), map_union_assoc. reflexivity.
Qed.


End Normalisation.

(** ** Loading a side and running the query *)

Section Pipeline.
Context `{Collaborators}.
Implicit Types (self : IfcClasher) (ab : side).

Lemma keeps_refl ab self : keeps ab self self.
Proof. unfold keeps. repeat split; reflexivity. Qed.

Lemma keeps_trans ab self1 self2 self3 :
  keeps ab self1 self2 → keeps ab self2 self3 → keeps ab self1 self3.
Proof.
  unfold keeps. intros (? & ? & ? & ? & ? & ? & ? & ?) (? & ? & ? & ? & ? & ? & ? & ?).
  repeat split; congruence.
Qed.

Lemma add_collision_object_keeps ab shape self self' :
  add_collision_object ab shape self = Ok self' →
  keeps ab self self'
  ∧ (∀ cm, cm_of ab self = Ok cm → ∃ cm', cm_of ab self' = Ok cm').
Proof.
  destruct shape as [shape|]; simpl.
  - intros Hrun.
    apply bind_Ok in Hrun as (f & _ & Hrun).
    apply bind_Ok in Hrun as (element & _ & Hrun).
    apply bind_Ok in Hrun as ([mesh self1] & Hcache & Hrun).
    apply bind_Ok in Hrun as (mat & _ & Hrun).
    apply bind_Ok in Hrun as (cm & _ & Hrun). injection Hrun as <-.
    assert (Hself1 : keeps ab self self1).
    { destruct (meshes_of ab self !! mesh_name shape).
      - injection Hcache as _ <-. apply keeps_refl.
      - apply bind_Ok in Hcache as (m & _ & Hcache). injection Hcache as _ <-.
        unfold keeps. destruct ab; repeat split; reflexivity. }
    split.
    + eapply keeps_trans; [exact Hself1|].
      unfold keeps. destruct ab; repeat split; reflexivity.
    + intros _ _. eexists. apply cm_of_set_cm.
  - intros [= <-]. split; [apply keeps_refl|]. eauto.
Qed.

Lemma add_collision_objects_keeps ab self self' :
  add_collision_objects ab self = Ok self' →
  keeps ab self self'
  ∧ (∀ cm, cm_of ab self = Ok cm → ∃ cm', cm_of ab self' = Ok cm').
Proof.
  unfold add_collision_objects. intros Hrun.
  apply bind_Ok in Hrun as (f & _ & Hrun).
  destruct (initialize (geom_iterator f)); simpl in Hrun;
    [|injection Hrun as <-; split; [apply keeps_refl|eauto]].
  rewrite consume_for_each in Hrun.
  revert self Hrun. generalize (get (geom_iterator f) :: remaining (geom_iterator f)).
  intros l. induction l as [|shape l IH]; intros self Hrun; simpl in Hrun.
  - injection Hrun as <-. split; [apply keeps_refl|eauto].
  - apply bind_Ok in Hrun as (self1 & Hstep & Hrun).
    apply add_collision_object_keeps in Hstep as [Hk1 Hcm1].
    destruct (IH _ Hrun) as [Hk2 Hcm2].
    split; [eapply keeps_trans; eassumption|].
    intros cm Hcm. destruct (Hcm1 cm Hcm) as (cm1 & Hcm1'). eauto.
Qed.

(** A run of [add_collision_objects] on a file that the geometry iterator
    rejects returns at once and changes nothing. *)
Lemma add_collision_objects_invalid ab self f :
  model_of ab self = Ok f → initialize (geom_iterator f) = false →
  add_collision_objects ab self = Ok self.
Proof.
  intros Hf Hinit. unfold add_collision_objects.
  rewrite Hf, Ok_bind. cbn zeta. rewrite Hinit. reflexivity.
Qed.

(** What one turn of the loading loop does. *)
Lemma load_side_Ok self ab self' :
  load_side self ab = Ok self' →
  ∃ f0 f1,
    ifcopenshell_open (file_of ab self) = Ok f0
    ∧ patch_file f0 = Ok f1
    ∧ model_of ab self' = Ok (purge_file f1)
    ∧ model_of (other ab) self' = model_of (other ab) self
    ∧ cm_of (other ab) self' = cm_of (other ab) self
    ∧ clashes self' = clashes self
    ∧ settings_output self' = settings_output self
    ∧ tolerance self' = tolerance self
    ∧ (∃ cm, cm_of ab self' = Ok cm)
    ∧ (initialize (geom_iterator (purge_file f1)) = false →
       cm_of ab self' = Ok [] ∧ heap self' = heap self).
Proof.
  unfold load_side, patch_ifc, purge_elements. intros Hrun.
  apply bind_Ok in Hrun as (f0 & Hopen & Hrun).
  apply bind_Ok in Hrun as (self1 & Hpatch & Hrun).
  apply bind_Ok in Hrun as (self2 & Hpurge & Hbuild).
  rewrite model_of_set_model, Ok_bind in Hpatch.
  apply bind_Ok in Hpatch as (f1 & Hf1 & [= <-]).
  rewrite model_of_set_model, Ok_bind in Hpurge. injection Hpurge as <-.
  exists f0, f1. split; [exact Hopen|]. split; [exact Hf1|].
  set (ready := set_cm ab [] _) in Hbuild.
  assert (Hmodel : model_of ab ready = Ok (purge_file f1))
    by (destruct ab; reflexivity).
  assert (Hcm : cm_of ab ready = Ok []) by (destruct ab; reflexivity).
  destruct (add_collision_objects_keeps _ _ _ Hbuild)
    as [(Hout & Htol & Ha & Hb & _ & _ & Hclashes & Hother) Hcm'].
  split; [|split; [|split; [|split; [|split; [|split; [|split]]]]]].
  - destruct ab; unfold model_of; [rewrite Ha|rewrite Hb]; reflexivity.
  - destruct ab; unfold model_of; simpl; [rewrite Hb|rewrite Ha]; reflexivity.
  - rewrite Hother. destruct ab; reflexivity.
  - rewrite Hclashes. destruct ab; reflexivity.
  - rewrite Hout. destruct ab; reflexivity.
  - rewrite Htol. destruct ab; reflexivity.
  - apply (Hcm' _ Hcm).
  - intros Hinit.
    rewrite (add_collision_objects_invalid _ _ _ Hmodel Hinit) in Hbuild.
    injection Hbuild as <-. split; [exact Hcm|]. destruct ab; reflexivity.
Qed.

(** The two turns of the loading loop, seen from the state they end in. *)
Lemma load_both_Ok a_file b_file output self :
  for_each load_side [side_a; side_b] (init a_file b_file output) = Ok self →
  clashes self = []
  ∧ settings_output self = output
  ∧ (∃ cm_a cm_b, cm_of side_a self = Ok cm_a ∧ cm_of side_b self = Ok cm_b)
  ∧ (∀ ab f, model_of ab self = Ok f → initialize (geom_iterator f) = false →
             cm_of ab self = Ok []).
Proof.
  simpl. intros Hrun.
  apply bind_Ok in Hrun as (self1 & Ha & Hrun).
  apply bind_Ok in Hrun as (self2 & Hb & [= <-]).
  apply load_side_Ok in Ha
    as (fa0 & fa1 & _ & _ & Hma & _ & _ & Hcl1 & Hout1 & _ & (cm_a & Hcma) & Hinva).
  apply load_side_Ok in Hb
    as (fb0 & fb1 & _ & _ & Hmb & Hma' & Hcma' & Hcl2 & Hout2 & _ & (cm_b & Hcmb) & Hinvb).
  simpl in Hma', Hcma'.
  split; [rewrite Hcl2, Hcl1; reflexivity|].
  split; [rewrite Hout2, Hout1; reflexivity|].
  split; [exists cm_a, cm_b; split; [rewrite Hcma'; exact Hcma|exact Hcmb]|].
  intros [|] f Hf Hinit.
  - rewrite Hma', Hma in Hf. injection Hf as <-.
    rewrite Hcma'. apply Hinva, Hinit.
  - rewrite Hmb in Hf. injection Hf as <-. apply Hinvb, Hinit.
Qed.

Lemma query_and_report_no_interference self cm_a cm_b :
  cm_of side_a self = Ok cm_a → cm_of side_b self = Ok cm_b →
  (in_collision_other (heap self) cm_a cm_b).1 = false →
  query_and_report self = Ok self.
Proof.
  intros Ha Hb Hno. unfold query_and_report.
  rewrite Ha, Ok_bind, Hb, Ok_bind. cbn zeta. rewrite Hno. reflexivity.
Qed.

Lemma export_empty self fs :
  clashes self = [] → export self fs = <[settings_output self := "[]"]> fs.
Proof. intros Hempty. unfold export. rewrite Hempty. reflexivity. Qed.

(** C8. When the query reports no interference, [clash] returns with the
    report as it was, which is empty, and [export] then writes the text
    [[]] to the output path: the file is there and holds an empty array. *)
Theorem no_interference_empty_array :
  (∀ self cm_a cm_b,
     cm_of side_a self = Ok cm_a → cm_of side_b self = Ok cm_b →
     (in_collision_other (heap self) cm_a cm_b).1 = false →
     query_and_report self = Ok self)
  ∧ (∀ a_file b_file output fs self cm_a cm_b,
       for_each load_side [side_a; side_b] (init a_file b_file output) = Ok self →
       cm_of side_a self = Ok cm_a → cm_of side_b self = Ok cm_b →
       (in_collision_other (heap self) cm_a cm_b).1 = false →
       clash (init a_file b_file output) = Ok self
       ∧ clashes self = []
       ∧ ∃ fs', main a_file b_file output fs = Ok fs'
                ∧ fs' = export self fs
                ∧ fs' !! output = Some "[]").
Proof.
  split; [exact query_and_report_no_interference|].
  intros a_file b_file output fs self cm_a cm_b Hload Ha Hb Hno.
  destruct (load_both_Ok _ _ _ _ Hload) as (Hempty & Hout & _).
  assert (Hclash : clash (init a_file b_file output) = Ok self).
  { unfold clash. rewrite Hload, Ok_bind.
    exact (query_and_report_no_interference _ _ _ Ha Hb Hno). }
  split; [exact Hclash|]. split; [exact Hempty|].
  exists (export self fs). unfold main. cbn zeta. rewrite Hclash, Ok_bind.
  split; [reflexivity|]. split; [reflexivity|].
  rewrite (export_empty _ _ Hempty), Hout. apply lookup_insert_eq.
Qed.

(** C5. A side whose file the geometry iterator rejects raises nothing: the
    build for that side returns at once, the side's scene stays as empty
    as it was created, the loading loop goes on, and the query and the
    export are run on that state; if the query then reports no
    interference the run ends with an empty array written. *)
Theorem failed_initialize_is_silent :
  (∀ ab self f,
     model_of ab self = Ok f → initialize (geom_iterator f) = false →
     add_collision_objects ab self = Ok self)
  ∧ (∀ ab self f0 f1,
       ifcopenshell_open (file_of ab self) = Ok f0 → patch_file f0 = Ok f1 →
       initialize (geom_iterator (purge_file f1)) = false →
       ∃ self', load_side self ab = Ok self'
                ∧ cm_of ab self' = Ok []
                ∧ heap self' = heap self)
  ∧ (∀ a_file b_file output fs self ab f,
       for_each load_side [side_a; side_b] (init a_file b_file output) = Ok self →
       model_of ab self = Ok f → initialize (geom_iterator f) = false →
       cm_of ab self = Ok []
       ∧ main a_file b_file output fs
         = query_and_report self ≫= (λ st, Ok (export st fs))
       ∧ (∀ cm_a cm_b,
            cm_of side_a self = Ok cm_a → cm_of side_b self = Ok cm_b →
            (in_collision_other (heap self) cm_a cm_b).1 = false →
            main a_file b_file output fs = Ok (<[output := "[]"]> fs))).
Proof.
  split; [exact add_collision_objects_invalid|]. split.
  - intros ab self f0 f1 Hopen Hpatch Hinit.
    unfold load_side, patch_ifc, purge_elements.
    rewrite Hopen, Ok_bind. cbn zeta.
    rewrite model_of_set_model, Ok_bind, Hpatch, !Ok_bind.
    rewrite model_of_set_model, !Ok_bind.
    eexists. split.
    + apply (add_collision_objects_invalid _ _ (purge_file f1));
        [destruct ab; reflexivity|exact Hinit].
    + split; destruct ab; reflexivity.
  - intros a_file b_file output fs self ab f Hload Hf Hinit.
    destruct (load_both_Ok _ _ _ _ Hload) as (Hempty & Hout & _ & Hinvalid).
    assert (Hmain : main a_file b_file output fs
                    = query_and_report self ≫= (λ st, Ok (export st fs))).
    { unfold main, clash. cbn zeta. rewrite Hload, Ok_bind. reflexivity. }
    split; [exact (Hinvalid ab f Hf Hinit)|]. split; [exact Hmain|].
    intros cm_a cm_b Ha Hb Hno.
    rewrite Hmain, (query_and_report_no_interference _ _ _ Ha Hb Hno), Ok_bind.
    rewrite (export_empty _ _ Hempty), Hout. reflexivity.
Qed.

End Pipeline.

(** ** Checking a file's decomposition *)

Lemma decomposes_parts_of (f : ifc_file) (x y : nat) :
  decomposes f x y ↔ y ∈ parts_of f x.
Proof.
  unfold decomposes, parts_of. split.
  - intros (c & g & n & p & rels & rel & parts & -> & Hrel & Hparts & Hy).
    apply list_elem_of_bind. exists rel. rewrite Hparts. auto.
  - destruct (f !! x) as [[c g n p rels| | | | |]|];
      try (intros Hy; apply elem_of_nil in Hy; contradiction).
    intros (rel & Hy & Hrel)%list_elem_of_bind.
    destruct (f !! rel) as [[|parts| | | |]|] eqn:Hparts;
      try (apply elem_of_nil in Hy; contradiction).
    exists c, g, n, p, rels, rel, parts. auto.
Qed.

Lemma ids_increase_acyclic (f : ifc_file) : ids_increase f = true → acyclic f.
Proof.
  unfold ids_increase. rewrite forallb_forall. intros Hcheck.
  assert (Hstep : ∀ x y, decomposes f x y → x < y).
  { intros x y Hxy.
    assert (∃ e, f !! x = Some e) as [e He].
    { destruct Hxy as (c & g & n & p & rels & _ & _ & -> & _). eauto. }
    apply decomposes_parts_of in Hxy.
    specialize (Hcheck (x, e)). simpl in Hcheck.
    rewrite forallb_forall in Hcheck.
    apply Nat.ltb_lt, Hcheck.
    - apply list_elem_of_In, elem_of_map_to_list, He.
    - apply list_elem_of_In, Hxy. }
  assert (Htc : ∀ x y, tc (decomposes f) x y → x < y).
  { intros x y Hxy. induction Hxy as [x y Hxy|x y z Hxy _ IH].
    - apply Hstep, Hxy.
    - apply Hstep in Hxy. lia. }
  intros x Hx. apply Htc in Hx. lia.
Qed.

Lemma references_typed_well_typed (f : ifc_file) :
  references_typed f = true → well_typed f.
Proof.
  unfold references_typed. rewrite forallb_forall.
  intros Hcheck x c g n p rels Hx rel Hrel.
  specialize (Hcheck (x, IfcRoot c g n p rels)). simpl in Hcheck.
  rewrite forallb_forall in Hcheck.
  specialize (Hcheck (proj1 (list_elem_of_In _ _)
                        (proj2 (elem_of_map_to_list _ _ _) Hx))
                     rel (proj1 (list_elem_of_In _ _) Hrel)).
  destruct (f !! rel) as [[|parts| | | |]|]; try discriminate.
  exists parts. split; [reflexivity|]. intros y Hy.
  rewrite forallb_forall in Hcheck.
  specialize (Hcheck y (proj1 (list_elem_of_In _ _) Hy)).
  destruct (f !! y) as [[c' g' n' p' rels'| | | | |]|]; try discriminate.
  eauto 10.
Qed.

(** ** The program on the sample model *)

Lemma create_mesh_divisible_by_three_witness :
  create_mesh Sample.broken = Raise IndexError
  ∧ ∃ mesh, create_mesh Sample.wall = Ok mesh
            ∧ length (mesh_vertices mesh) = 3 ∧ length (mesh_faces mesh) = 1.
Proof.
  split.
  - apply (proj2 (create_mesh_divisible_by_three Sample.broken)).
    right. vm_compute. discriminate.
  - destruct (proj1 (create_mesh_divisible_by_three Sample.wall))
      as (mesh & Hmesh & Hv & Hf & _).
    + split; reflexivity.
    + exists mesh. split; [exact Hmesh|]. split; [exact Hv|exact Hf].
Defined.

Lemma scene_transform_of_shape_witness :
  add_collision_object side_a (Some Sample.slab) Sample.ready = Ok Sample.after_slab
  ∧ ∃ mesh, cm_of side_a Sample.after_slab
            = Ok [ ("slab", mesh,
                    [ [0; -1; 0; 5]; [1; 0; 0; 6]; [0; 0; 1; 7]; [0; 0; 0; 1] ]%float) ].
Proof.
  assert (Hrun : add_collision_object side_a (Some Sample.slab) Sample.ready
                 = Ok Sample.after_slab) by (vm_compute; reflexivity).
  split; [exact Hrun|].
  destruct (scene_transform_of_shape _ _ _ _ Hrun)
    as (m0 & m1 & m2 & m3 & m4 & m5 & m6 & m7 & m8 & m9 & m10 & m11 & mesh & cm
        & Htake & Hcm & Hcm' & _).
  exists mesh. rewrite Hcm'.
  vm_compute in Htake. injection Htake as <- <- <- <- <- <- <- <- <- <- <- <-.
  vm_compute in Hcm. injection Hcm as <-. reflexivity.
Defined.

Lemma mesh_built_once_per_geometry_witness :
  add_collision_objects (H:=Sample.env) side_a Sample.ready = Ok Sample.built
  ∧ length (delivered (geom_iterator (Collaborators:=Sample.env) Sample.file)) = 3
  ∧ length (heap Sample.built) = 2.
Proof.
  assert (Hrun : add_collision_objects (H:=Sample.env) side_a Sample.ready
                 = Ok Sample.built) by (vm_compute; reflexivity).
  split; [exact Hrun|]. split; [reflexivity|].
  destruct (mesh_built_once_per_geometry (H:=Sample.env) side_a Sample.ready
              Sample.built Sample.file [])
    as (entries & _ & _ & _ & Hsize & _).
  - reflexivity.
  - reflexivity.
  - reflexivity.
  - reflexivity.
  - exact Hrun.
  - rewrite Hsize. vm_compute. reflexivity.
Defined.

(** The three depths around the tolerance: [0.0099] is left out, [0.01] and
    [0.02] are reported. *)
Example tolerance_boundary :
  rec_penetration_depth <$> dict_values (clashes Sample.filtered)
  = [0.01; 0.02]%float.
Proof. reflexivity. Qed.

Lemma tolerance_filter_witness :
  for_each clash_contact Sample.around_tolerance Sample.loaded = Ok Sample.filtered
  ∧ ("wall-door", Sample.wall_door) ∈ clashes Sample.filtered
  ∧ (rec_penetration_depth Sample.wall_door <? 0.01)%float = false
  ∧ (0.01 <=? rec_penetration_depth Sample.wall_door)%float = true.
Proof.
  assert (Hrun : for_each clash_contact Sample.around_tolerance Sample.loaded
                 = Ok Sample.filtered) by (vm_compute; reflexivity).
  assert (Hin : ("wall-door", Sample.wall_door) ∈ clashes Sample.filtered)
    by (vm_compute; left).
  split; [exact Hrun|]. split; [exact Hin|].
  destruct (proj2 tolerance_filter Sample.around_tolerance
              Sample.loaded Sample.filtered "wall-door" Sample.wall_door)
    as [Hnot Hge]; [reflexivity|reflexivity|exact Hrun|exact Hin|].
  split; [exact Hnot|]. apply Hge. reflexivity.
Defined.

(** C2, as stated, fails: a contact whose depth is NaN is not below the
    tolerance, so it is reported, and NaN is not [>= 0.01]. *)
Lemma undefined_depth_is_reported :
  ¬ (∀ (H : Collaborators) (a_file b_file output : string) (self : IfcClasher)
       (r : ClashRecord),
       clash (init a_file b_file output) = Ok self →
       r ∈ dict_values (clashes self) →
       (0.01 <=? rec_penetration_depth r)%float = true).
Proof.
  intros Hclaim.
  specialize (Hclaim Sample.undefined_env "a.ifc" "b.ifc" "out.json"
                Sample.undefined_run Sample.undefined_record).
  assert (Hge : (0.01 <=? rec_penetration_depth Sample.undefined_record)%float = true).
  { apply Hclaim; [vm_compute; reflexivity|vm_compute; left]. }
  vm_compute in Hge. discriminate.
Qed.

Lemma one_record_per_key_witness :
  for_each clash_contact Sample.twice Sample.loaded = Ok Sample.deduplicated
  ∧ length (clashes Sample.deduplicated) = 1
  ∧ ∃ r, dict_get "wall-slab" (clashes Sample.deduplicated) = Some r
         ∧ rec_penetration_depth r = 0.25%float.
Proof.
  assert (Hrun : for_each clash_contact Sample.twice Sample.loaded
                 = Ok Sample.deduplicated) by (vm_compute; reflexivity).
  split; [exact Hrun|]. split; [reflexivity|].
  destruct (one_record_per_key Sample.twice Sample.loaded
              Sample.deduplicated eq_refl Hrun) as (_ & _ & Hlast).
  destruct (Hlast [Sample.touching "wall" "slab" 0.5]
              (Sample.touching "wall" "slab" 0.25) [])
    as (r & Hget & Hr).
  - reflexivity.
  - reflexivity.
  - intros c' Hc'. apply elem_of_nil in Hc'. contradiction.
  - exists r. split; [exact Hget|]. apply Hr.
Defined.

Lemma key_separator_witness :
  contact_key (Sample.touching "wall" "slab" 1) ≠ contact_key (Sample.touching "wall" "door" 1)
  ∧ for_each clash_contact [Sample.level_wall; Sample.wall_of_level] Sample.loaded
    = Ok Sample.collided
  ∧ ∃ r, dict_get "lvl-1-wall" (clashes Sample.collided) = Some r
         ∧ reports r Sample.wall_of_level ∧ ¬ reports r Sample.level_wall.
Proof.
  destruct key_separator as (_ & Hfree & _ & Hdash).
  split.
  - apply Hfree; try reflexivity. discriminate.
  - assert (Hrun : for_each clash_contact [Sample.level_wall; Sample.wall_of_level]
                     Sample.loaded = Ok Sample.collided)
      by (vm_compute; reflexivity).
    split; [exact Hrun|].
    apply (Hdash [] Sample.level_wall [] Sample.wall_of_level [] Sample.loaded
             Sample.collided).
    + discriminate.
    + reflexivity.
    + reflexivity.
    + intros c' Hc'. apply elem_of_nil in Hc'. contradiction.
    + exact Hrun.
Defined.

Lemma find_decomposed_ifc_class_complete_witness :
  well_typed Sample.file ∧ acyclic Sample.file ∧ size Sample.file ≤ 50
  ∧ find_decomposed_ifc_class (H:=Sample.env) 50 Sample.file 1 "IfcBuilding" = Ok [9]
  ∧ matching_descendant (H:=Sample.env) Sample.file "IfcBuilding" 1 9.
Proof.
  assert (Hwt : well_typed Sample.file)
    by (apply references_typed_well_typed; vm_compute; reflexivity).
  assert (Hacyc : acyclic Sample.file)
    by (apply ids_increase_acyclic; vm_compute; reflexivity).
  assert (Hsize : size Sample.file ≤ 50)
    by (apply Nat.leb_le; vm_compute; reflexivity).
  assert (Hrun : find_decomposed_ifc_class (H:=Sample.env) 50 Sample.file 1
                   "IfcBuilding" = Ok [9]) by (vm_compute; reflexivity).
  split; [exact Hwt|]. split; [exact Hacyc|]. split; [exact Hsize|].
  split; [exact Hrun|].
  destruct (find_decomposed_ifc_class_complete (H:=Sample.env) Sample.file
              "IfcBuilding" 50 1 Hwt Hacyc) as (results & Hres & Hiff).
  - exists "IfcProject", "project", (Some "Project"), None, [2]. reflexivity.
  - exact Hsize.
  - apply Hiff. rewrite Hrun in Hres. injection Hres as <-. left.
Defined.


Lemma no_interference_empty_array_witness :
  for_each (load_side (H:=Sample.env)) [side_a; side_b] Sample.blank = Ok Sample.loaded
  ∧ ∃ fs', main (H:=Sample.env) "a.ifc" "b.ifc" "out.json" ∅ = Ok fs'
           ∧ fs' !! "out.json" = Some "[]".
Proof.
  assert (Hload : for_each (load_side (H:=Sample.env)) [side_a; side_b] Sample.blank
                  = Ok Sample.loaded) by (vm_compute; reflexivity).
  split; [exact Hload|].
  destruct (proj2 (no_interference_empty_array (H:=Sample.env))
              "a.ifc" "b.ifc" "out.json" ∅ Sample.loaded
              Sample.scene_a Sample.scene_b Hload)
    as (_ & _ & fs' & Hmain & _ & Hfile).
  - reflexivity.
  - reflexivity.
  - reflexivity.
  - exists fs'. split; [exact Hmain|exact Hfile].
Defined.

Lemma failed_initialize_is_silent_witness :
  for_each (load_side (H:=Sample.env)) [side_a; side_b]
    (init "bare.ifc" "b.ifc" "out.json") = Ok Sample.bare_loaded
  ∧ initialize (geom_iterator (Collaborators:=Sample.env) Sample.bare_model) = false
  ∧ cm_of side_a Sample.bare_loaded = Ok []
  ∧ main (H:=Sample.env) "bare.ifc" "b.ifc" "out.json" ∅ = Ok (<["out.json" := "[]"]> ∅).
Proof.
  assert (Hload : for_each (load_side (H:=Sample.env)) [side_a; side_b]
                    (init "bare.ifc" "b.ifc" "out.json") = Ok Sample.bare_loaded)
    by (vm_compute; reflexivity).
  split; [exact Hload|]. split; [reflexivity|].
  destruct (proj2 (proj2 (failed_initialize_is_silent (H:=Sample.env)))
              "bare.ifc" "b.ifc" "out.json" ∅ Sample.bare_loaded side_a
              Sample.bare_model Hload)
    as (Hscene & _ & Hmain).
  - reflexivity.
  - reflexivity.
  - split; [exact Hscene|].
    apply (Hmain [] Sample.bare_scene_b); reflexivity.
Defined.

(** * Further properties of the program *)

(** ** Purging the spaces *)

Section Purge.
Context `{Collaborators}.
Implicit Types (f : ifc_file) (cls : string).




End Purge.

(** ** Null shapes *)

Section NullShapes.
Context `{Collaborators}.

Lemma skip_null_shapes ab (l : list (option Shape)) : ∀ self,
  for_each (λ self shape, add_collision_object ab shape self) l self
  = for_each (λ self shape, add_collision_object ab (Some shape) self)
      (omap (λ shape, shape) l) self.
Proof.
  induction l as [|[shape|] l IH]; intros self; [reflexivity| |].
  - cbn [for_each omap]. apply result_bind_ext, IH.
  - cbn [for_each omap]. rewrite <- IH. reflexivity.
Qed.

(** X2. The build of a side is [add_collision_object] run over the shapes
    the iterator delivers, in their order, with the null ones left out: a
    null shape neither stops the build nor leaves a trace in its result. *)
Theorem null_shapes_are_skipped ab (self : IfcClasher) (f : ifc_file) :
  model_of ab self = Ok f → initialize (geom_iterator f) = true →
  add_collision_objects ab self
  = for_each (λ self shape, add_collision_object ab (Some shape) self)
      (delivered (geom_iterator f)) self.
Proof.
  intros Hf Hinit. unfold add_collision_objects.
  rewrite Hf, Ok_bind. cbn zeta. rewrite Hinit. cbn [negb].
  rewrite consume_for_each. apply skip_null_shapes.
Qed.

End NullShapes.

(** ** The transform data *)

(** X9. The transform is read from the first twelve entries of the shape's
    matrix data: with at least twelve the rows are built, from these twelve
    alone, and with fewer an index past the end is read. *)
Theorem transform_rows_needs_twelve (m : list float) :
  (12 ≤ length m →
     ∃ mat, transform_rows m = Ok mat ∧ transform_rows (take 12 m) = Ok mat)
  ∧ (length m < 12 → transform_rows m = Raise IndexError).
Proof.
  split; intros Hlen.
  - do 12 (destruct m as [|? m]; [simpl in Hlen; lia|]).
    eexists. split; reflexivity.
  - do 12 (destruct m as [|? m]; [reflexivity|]). simpl in Hlen. lia.
Qed.

(** ** More on the loop over the contacts *)

Section Report.
Implicit Types (self : IfcClasher) (c : Contact).

Lemma by_guid_raises (f : ifc_file) (g : string) (e : exn) :
  by_guid f g = Raise e → e = RuntimeError.
Proof.
  unfold by_guid. destruct (List.find _ _); [discriminate|].
  intros [= <-]. reflexivity.
Qed.

(** One iteration, with what it looks up in the models. *)
Lemma clash_contact_step self c self' :
  clash_contact self c = Ok self' →
  a self' = a self ∧ b self' = b self
  ∧ ∃ fa fb,
      model_of side_a self = Ok fa ∧ model_of side_b self = Ok fb
      ∧ (((penetration_depth (raw c) <? tolerance self)%float = true ∧ self' = self)
         ∨ ((penetration_depth (raw c) <? tolerance self)%float = false
            ∧ ∃ r, reports r c ∧ described_by fa fb r
                   ∧ clashes self' = dict_set (contact_key c) r (clashes self))).
Proof.
  unfold clash_contact, contact_key. destruct (names c) as [a_id b_id] eqn:Hnames.
  intros Hrun.
  apply bind_Ok in Hrun as (fa & Hfa & Hrun). apply bind_Ok in Hrun as (ea & Hea & Hrun).
  apply bind_Ok in Hrun as (fb & Hfb & Hrun). apply bind_Ok in Hrun as (eb & Heb & Hrun).
  destruct (penetration_depth (raw c) <? tolerance self)%float.
  - injection Hrun as <-. split; [reflexivity|]. split; [reflexivity|].
    exists fa, fb. auto.
  - apply bind_Ok in Hrun as (ia & Hia & Hrun). apply bind_Ok in Hrun as (ib & Hib & Hrun).
    apply bind_Ok in Hrun as (a_name & Hna & Hrun).
    apply bind_Ok in Hrun as (b_name & Hnb & Hrun).
    injection Hrun as <-. split; [reflexivity|]. split; [reflexivity|].
    exists fa, fb. split; [exact Hfa|]. split; [exact Hfb|]. right.
    split; [reflexivity|]. eexists. split; [|split; [|reflexivity]].
    + unfold reports. rewrite Hnames. simpl. auto.
    + simpl in Hia, Hib.
      destruct (fa !! ea) as [ia'|] eqn:Hla; [|discriminate].
      destruct (fb !! eb) as [ib'|] eqn:Hlb; [|discriminate].
      injection Hia as ->. injection Hib as ->.
      exists ea, ia, eb, ib. simpl. auto 10.
Qed.

Lemma model_of_same ab self self' :
  a self' = a self → b self' = b self → model_of ab self' = model_of ab self.
Proof.
  intros Ha Hb. unfold model_of. destruct ab; [rewrite Ha|rewrite Hb]; reflexivity.
Qed.

(** X3. A contact one of whose labels does not resolve in its model makes
    the iteration raise, whatever its depth, also a depth below the
    tolerance; the loop over contacts that include it never yields a
    report. *)
Theorem unresolved_label_is_fatal self c (fa fb : ifc_file) :
  model_of side_a self = Ok fa → model_of side_b self = Ok fb →
  by_guid fa (names c).1 = Raise RuntimeError
  ∨ by_guid fb (names c).2 = Raise RuntimeError →
  clash_contact self c = Raise RuntimeError
  ∧ ∀ contacts self', c ∈ contacts →
      for_each clash_contact contacts self ≠ Ok self'.
Proof.
  intros Hfa Hfb Hbad.
  assert (Hstep : ∀ s, model_of side_a s = Ok fa → model_of side_b s = Ok fb →
                       clash_contact s c = Raise RuntimeError).
  { intros s Ha Hb. unfold clash_contact. destruct (names c) as [a_id b_id].
    simpl in Hbad. rewrite Ha, Ok_bind.
    destruct (by_guid fa a_id) as [ea|e] eqn:Hea.
    - rewrite Ok_bind, Hb, Ok_bind.
      destruct Hbad as [Hbad|Hbad]; [discriminate|]. rewrite Hbad. reflexivity.
    - apply by_guid_raises in Hea as ->. reflexivity. }
  split; [apply Hstep; assumption|].
  intros contacts. revert self Hfa Hfb.
  induction contacts as [|c' contacts IH]; intros self Hfa Hfb self' Hin Hrun.
  - apply elem_of_nil in Hin. contradiction.
  - simpl in Hrun. apply bind_Ok in Hrun as (self1 & H1 & Hrun).
    apply elem_of_cons in Hin as [->|Hin].
    + rewrite (Hstep self Hfa Hfb) in H1. discriminate.
    + apply clash_contact_step in H1 as (Ha & Hb & _).
      apply (IH self1) with (self' := self'); [| |exact Hin|exact Hrun].
      * rewrite (model_of_same side_a _ _ Ha Hb). exact Hfa.
      * rewrite (model_of_same side_b _ _ Ha Hb). exact Hfb.
Qed.

(** X13. Every record of the report is described by the two models: its
    labels resolve there, and its classes and names are those of the
    elements the labels resolve to. *)
Theorem records_describe_elements (contacts : list Contact) self self'
    (fa fb : ifc_file) (k : string) (r : ClashRecord) :
  model_of side_a self = Ok fa → model_of side_b self = Ok fb →
  clashes self = [] →
  for_each clash_contact contacts self = Ok self' →
  (k, r) ∈ clashes self' →
  described_by fa fb r
  ∧ k = clash_key (rec_a_global_id r) (rec_b_global_id r).
Proof.
  intros Hfa Hfb Hempty Hrun Hin.
  assert (Hgen : ∀ l s s', model_of side_a s = Ok fa → model_of side_b s = Ok fb →
            for_each clash_contact l s = Ok s' → (k, r) ∈ clashes s' →
            (k, r) ∈ clashes s
            ∨ (described_by fa fb r
               ∧ k = clash_key (rec_a_global_id r) (rec_b_global_id r))).
  { induction l as [|c l IH]; intros s s' Ha Hb Hl Hk; simpl in Hl.
    - injection Hl as <-. left. exact Hk.
    - apply bind_Ok in Hl as (s1 & H1 & Hl).
      apply clash_contact_step in H1 as (Hma & Hmb & fa' & fb' & Ha' & Hb' & Hcase).
      rewrite Ha in Ha'. rewrite Hb in Hb'. injection Ha' as <-. injection Hb' as <-.
      destruct (IH s1 s') as [Hold|Hnew]; [| |exact Hl|exact Hk| |right; exact Hnew].
      + rewrite (model_of_same side_a _ _ Hma Hmb). exact Ha.
      + rewrite (model_of_same side_b _ _ Hma Hmb). exact Hb.
      + destruct Hcase as [[_ ->]|(_ & r0 & Hr0 & Hdesc & Hset)]; [left; exact Hold|].
        rewrite Hset in Hold.
        apply dict_set_elem in Hold as [[= -> ->]|Hold]; [|left; exact Hold].
        right. split; [exact Hdesc|].
        destruct Hr0 as (-> & -> & _). reflexivity. }
  destruct (Hgen contacts self self' Hfa Hfb Hrun Hin) as [Hold|Hnew]; [|exact Hnew].
  rewrite Hempty in Hold. apply elem_of_nil in Hold. contradiction.
Qed.

Lemma dict_set_keys_order {V} (k : string) (v : V) (d : pydict V) :
  (dict_set k v d).*1 = if decide (k ∈ d.*1) then d.*1 else d.*1 ++ [k].
Proof.
  induction d as [|[k0 v0] d IH].
  - reflexivity.
  - cbn [dict_set]. destruct (bool_decide (k0 = k)) eqn:Hk.
    + apply bool_decide_eq_true in Hk. subst k0.
      clear IH. rewrite !fmap_cons. cbn [fst].
      destruct (decide (k ∈ k :: d.*1)) as [_|Hno]; [reflexivity|].
      exfalso. apply Hno. left.
    + apply bool_decide_eq_false in Hk.
      rewrite !fmap_cons, IH. clear IH. cbn [fst].
      destruct (decide (k ∈ d.*1)) as [Hin|Hin];
        destruct (decide (k ∈ k0 :: d.*1)) as [Hin'|Hin']; try reflexivity.
      * exfalso. apply Hin'. right. exact Hin.
      * apply elem_of_cons in Hin' as [->|Hin']; [congruence|contradiction].
Qed.

Lemma first_occurrences (l : list string) :
  foldl (λ ks k, if decide (k ∈ ks) then ks else ks ++ [k]) [] l
  = reverse (remove_dups (reverse l)).
Proof.
  induction l as [|k l IH] using rev_ind; [reflexivity|].
  rewrite foldl_app, reverse_app. simpl. rewrite IH.
  assert (Hiff : k ∈ reverse (remove_dups (reverse l)) ↔ k ∈ reverse l).
  { rewrite elem_of_reverse, elem_of_remove_dups. reflexivity. }
  destruct (decide (k ∈ reverse (remove_dups (reverse l)))) as [Hin|Hin];
    destruct (decide_rel elem_of k (reverse l)) as [Hin'|Hin'];
    try (exfalso; tauto); [reflexivity|].
  rewrite reverse_cons. reflexivity.
Qed.

Lemma report_keys (contacts : list Contact) : ∀ self self',
  for_each clash_contact contacts self = Ok self' →
  (clashes self').*1
  = foldl (λ ks k, if decide (k ∈ ks) then ks else ks ++ [k])
      (clashes self).*1 (contact_key <$> unfiltered self contacts).
Proof.
  induction contacts as [|c l IH]; intros self self' Hrun; simpl in Hrun.
  - injection Hrun as <-. reflexivity.
  - apply bind_Ok in Hrun as (self1 & H1 & Hrun).
    apply clash_contact_Ok in H1 as [Htol Hcase].
    rewrite (IH _ _ Hrun). unfold unfiltered. rewrite Htol. cbn [List.filter].
    destruct Hcase as [[Hd ->]|(Hd & r & _ & Hset)]; rewrite Hd; cbn [negb].
    + reflexivity.
    + cbn [fmap list_fmap foldl]. rewrite Hset, dict_set_keys_order. reflexivity.
Qed.

(** X4. The report lists its keys in the order in which they were first
    written: the keys of the contacts that pass the filter, each at the
    place of its first occurrence.  A later contact under the same key
    changes the record and not its place. *)
Theorem report_keeps_first_write_order (contacts : list Contact) self self' :
  clashes self = [] →
  for_each clash_contact contacts self = Ok self' →
  (clashes self').*1
  = reverse (remove_dups (reverse (contact_key <$> unfiltered self contacts))).
Proof.
  intros Hempty Hrun.
  rewrite (report_keys _ _ _ Hrun), Hempty. apply first_occurrences.
Qed.

End Report.

(** ** Errors and invariants of the normalisation *)

Section NormalisationEdges.
Context `{Collaborators}.
Implicit Types (f : ifc_file) (cls : string).

(** X5. A first model without any [IfcProject] ends the run with an
    [IndexError] raised by the normalisation: nothing is queried and
    nothing is exported. *)
Theorem missing_project_is_fatal (a_file b_file output : string)
    (fs : gmap string string) f :
  ifcopenshell_open a_file = Ok f → by_type f "IfcProject" = [] →
  patch_file f = Raise IndexError
  ∧ main a_file b_file output fs = Raise IndexError.
Proof.
  intros Hopen Hnone.
  assert (Hpatch : patch_file f = Raise IndexError)
    by (unfold patch_file; rewrite Hnone; reflexivity).
  split; [exact Hpatch|].
  assert (Hload : load_side (init a_file b_file output) side_a = Raise IndexError).
  { unfold load_side.
    change (file_of side_a (init a_file b_file output)) with a_file.
    rewrite Hopen, Ok_bind. cbn zeta.
    unfold patch_ifc. rewrite model_of_set_model, Ok_bind, Hpatch. reflexivity. }
  unfold main, clash. cbn zeta. cbn [for_each]. rewrite Hload. reflexivity.
Qed.

(** X6. The axis and the reference direction are optional, the placement
    is not: an element whose placement has a location and neither of the
    two directions is patched by moving the location to the origin and
    nothing else, and an element without [ObjectPlacement] makes the patch
    raise [AttributeError]. *)
Theorem placement_fields (f : ifc_file) (element : nat) :
  (∀ c g n d p rp loc cs,
     f !! element = Some (IfcRoot c g n (Some p) d) →
     f !! p = Some (IfcLocalPlacement (Some rp)) →
     f !! rp = Some (IfcAxis2Placement3D (Some loc) None None) →
     f !! loc = Some (IfcCartesianPoint cs) →
     patch_placement_to_origin f element
     = Ok (<[loc := IfcCartesianPoint [0; 0; 0]%float]> f))
  ∧ (∀ c g n d,
       f !! element = Some (IfcRoot c g n None d) →
       patch_placement_to_origin f element = Raise AttributeError).
Proof.
  split.
  - intros c g n d p rp loc cs He Hp Hrp Hloc.
    assert (Hread : ∀ attribute h,
              h !! element = Some (IfcRoot c g n (Some p) d) →
              h !! p = Some (IfcLocalPlacement (Some rp)) →
              h !! rp = Some (IfcAxis2Placement3D (Some loc) None None) →
              placement_attribute attribute h element
              = attribute (IfcAxis2Placement3D (Some loc) None None)).
    { intros attribute h H1 H2 H3. unfold placement_attribute. simpl.
      rewrite H1. simpl. rewrite H2. simpl. rewrite H3. reflexivity. }
    assert (Hne : loc ≠ element ∧ loc ≠ p ∧ loc ≠ rp)
      by (repeat split; intros ->; congruence).
    destruct Hne as (Hne1 & Hne2 & Hne3).
    set (f1 := <[loc := IfcCartesianPoint [0; 0; 0]%float]> f).
    assert (He1 : f1 !! element = Some (IfcRoot c g n (Some p) d))
      by (unfold f1; rewrite lookup_insert_ne by exact Hne1; exact He).
    assert (Hp1 : f1 !! p = Some (IfcLocalPlacement (Some rp)))
      by (unfold f1; rewrite lookup_insert_ne by exact Hne2; exact Hp).
    assert (Hrp1 : f1 !! rp = Some (IfcAxis2Placement3D (Some loc) None None))
      by (unfold f1; rewrite lookup_insert_ne by exact Hne3; exact Hrp).
    unfold patch_placement_to_origin, set_placement_coordinates, patch_direction.
    rewrite (Hread get_Location f He Hp Hrp). cbn [get_Location]. rewrite Ok_bind.
    cbn [set_Coordinates]. rewrite Hloc, Ok_bind. fold f1.
    rewrite (Hread get_Axis f1 He1 Hp1 Hrp1). cbn [get_Axis]. rewrite Ok_bind.
    rewrite bool_decide_eq_false_2 by (intros [? [=]]). rewrite Ok_bind.
    rewrite (Hread get_RefDirection f1 He1 Hp1 Hrp1). cbn [get_RefDirection].
    rewrite Ok_bind. rewrite bool_decide_eq_false_2 by (intros [? [=]]).
    reflexivity.
  - intros c g n d He.
    unfold patch_placement_to_origin, set_placement_coordinates, placement_attribute.
    simpl. rewrite He. reflexivity.
Qed.

(** X7. Normalising a side changes numbers only: the model has the same
    instance ids afterwards, every entity is of the kind it was with the
    references it had, and every entity that is neither a point nor a
    direction is exactly as before, so labels, names, classes and the
    decomposition are untouched. *)
Theorem patch_ifc_keeps_structure ab (self self' : IfcClasher) f :
  model_of ab self = Ok f → patch_ifc ab self = Ok self' →
  ∃ f', model_of ab self' = Ok f'
    ∧ dom f' = dom f
    ∧ (∀ i : nat, skeleton <$> f' !! i = skeleton <$> f !! i)
    ∧ (∀ (i : nat) e, f !! i = Some e →
         match e with IfcCartesianPoint _ | IfcDirection _ => False | _ => True end →
         f' !! i = Some e).
Proof.
  unfold patch_ifc. intros Hf Hrun. rewrite Hf, Ok_bind in Hrun.
  apply bind_Ok in Hrun as (f' & Hpatch & [= <-]).
  pose proof (replays_similar _ _ _ (patch_file_replays _ _ Hpatch)) as Hsim.
  assert (Hlook : ∀ i : nat, skeleton <$> f' !! i = skeleton <$> f !! i)
    by (intros i; symmetry; apply similar_lookup, Hsim).
  exists f'. split; [apply model_of_set_model|]. split; [|split; [exact Hlook|]].
  - apply set_eq. intros i. rewrite !elem_of_dom.
    specialize (Hlook i).
    destruct (f' !! i), (f !! i); simpl in Hlook; try discriminate;
      split; intros [? ?]; try discriminate; eauto.
  - intros i e He Hskel. specialize (Hlook i). rewrite He in Hlook.
    destruct (f' !! i) as [e'|]; [|discriminate]. simpl in Hlook.
    f_equal. destruct e, e'; simpl in *; try contradiction; congruence.
Qed.

Lemma for_each_Ok_each {A S} (body : S → A → result S) (l : list A) :
  ∀ s s', for_each body l s = Ok s' →
          ∀ x, x ∈ l → ∃ t t', body t x = Ok t'.
Proof.
  induction l as [|y l IH]; intros s s' Hrun x Hx; simpl in Hrun.
  - apply elem_of_nil in Hx. contradiction.
  - apply bind_Ok in Hrun as (s1 & H1 & Hrun).
    apply elem_of_cons in Hx as [->|Hx]; [eauto|].
    apply (IH _ _ Hrun x Hx).
Qed.

Lemma reaches_cycle_step f (x : nat) :
  (∃ y, rtc (decomposes f) x y ∧ tc (decomposes f) y y) →
  ∃ z, decomposes f x z ∧ ∃ y, rtc (decomposes f) z y ∧ tc (decomposes f) y y.
Proof.
  intros (y & Hxy & Hyy). destruct Hxy as [x|x z y Hxz Hzy].
  - destruct (decomposes_first_step f x x Hyy) as (z & Hxz & Hzx).
    exists z. split; [exact Hxz|]. exists x. split; [|exact Hyy].
    destruct Hzx as [<-|Hzx]; [apply rtc_refl|apply tc_rtc, Hzx].
  - exists z. split; [exact Hxz|]. eauto.
Qed.

Lemma find_decomposed_ifc_class_reaching_cycle f cls : ∀ depth (x : nat),
  (∃ w, rtc (decomposes f) x w ∧ tc (decomposes f) w w) →
  ∀ res, find_decomposed_ifc_class depth f x cls ≠ Ok res.
Proof.
  induction depth as [|depth IH]; intros x Hx res Hrun; [discriminate|].
  destruct (reaches_cycle_step f x Hx) as (z & Hz & Hzw).
  destruct Hz as (c & g & n & p & rels & rel & parts & Hel & Hrel & Hparts & Hpart).
  cbn [find_decomposed_ifc_class] in Hrun. simpl in Hrun. rewrite Hel in Hrun.
  simpl in Hrun.
  destruct (bool_decide (rels = [])) eqn:Hempty.
  - apply bool_decide_eq_true in Hempty. subst rels.
    apply elem_of_nil in Hrel. contradiction.
  - destruct (for_each_Ok_each _ _ _ _ Hrun rel Hrel) as (t & t' & Hbody).
    rewrite Hparts in Hbody. simpl in Hbody.
    destruct (for_each_Ok_each _ _ _ _ Hbody z Hpart) as (u & u' & Hinner).
    apply bind_Ok in Hinner as (pe & _ & Hinner).
    apply bind_Ok in Hinner as (sub & Hsub & _).
    apply (IH z Hzw sub Hsub).
Qed.

(** X8. Acyclicity is needed: where the start element reaches an element
    that is, through some steps, a part of itself, the search returns no
    result, however many frames the interpreter allows. *)
Theorem find_decomposed_ifc_class_cycle f cls (element y : nat) :
  rtc (decomposes f) element y → tc (decomposes f) y y →
  ∀ depth results, find_decomposed_ifc_class depth f element cls ≠ Ok results.
Proof.
  intros Hreach Hcycle depth.
  apply find_decomposed_ifc_class_reaching_cycle. eauto.
Qed.

End NormalisationEdges.

(** ** More on the build of a side *)

Section Build.
Context `{Collaborators}.
Implicit Types (self : IfcClasher) (ab : side).

(** X10. A shape whose geometry id is cached is given the cached mesh and
    its own buffers are never read, so it is added even where they are
    malformed; a shape whose geometry id is not cached and whose buffers
    cannot be grouped makes the call raise what [create_mesh] raises. *)
Theorem cached_geometry_is_not_rebuilt ab shape self (f : ifc_file) (element : nat) :
  model_of ab self = Ok f → by_guid f (guid shape) = Ok element →
  (∀ mesh mat cm,
     meshes_of ab self !! mesh_name shape = Some mesh →
     transform_rows (data (matrix (transformation shape))) = Ok mat →
     cm_of ab self = Ok cm →
     add_collision_object ab (Some shape) self
     = Ok (set_cm ab (cm ++ [(guid shape, mesh, mat)]) self))
  ∧ (∀ e, meshes_of ab self !! mesh_name shape = None →
          create_mesh shape = Raise e →
          add_collision_object ab (Some shape) self = Raise e).
Proof.
  intros Hf Hel. split.
  - intros mesh mat cm Hhit Hmat Hcm. unfold add_collision_object.
    rewrite Hf, Ok_bind, Hel, Ok_bind. cbn zeta. rewrite Hhit, Ok_bind.
    rewrite Hmat, Ok_bind. cbn zeta. rewrite Hcm. reflexivity.
  - intros e Hmiss Hmesh. unfold add_collision_object.
    rewrite Hf, Ok_bind, Hel, Ok_bind. cbn zeta. rewrite Hmiss, Hmesh. reflexivity.
Qed.

Lemma transform_rows_total (m : list float) :
  12 ≤ length m → ∃ mat, transform_rows m = Ok mat.
Proof.
  intros Hlen. do 12 (destruct m as [|? m]; [simpl in Hlen; lia|]).
  eexists. reflexivity.
Qed.

Lemma add_collision_object_total ab shape self (f : ifc_file) (cm : scene) :
  model_of ab self = Ok f → cm_of ab self = Ok cm → well_formed_shape f shape →
  ∃ self', add_collision_object ab (Some shape) self = Ok self'
           ∧ model_of ab self' = Ok f ∧ ∃ cm', cm_of ab self' = Ok cm'.
Proof.
  intros Hf Hcm ((element & Hel) & Hv & Hfc & Hdata).
  destruct (transform_rows_total _ Hdata) as (mat & Hmat).
  assert (Hrun : ∃ self', add_collision_object ab (Some shape) self = Ok self').
  { unfold add_collision_object. rewrite Hf, Ok_bind, Hel, Ok_bind. cbn zeta.
    destruct (meshes_of ab self !! mesh_name shape) as [mesh|].
    - rewrite Ok_bind, Hmat, Ok_bind. cbn zeta. rewrite Hcm. eexists. reflexivity.
    - unfold create_mesh. cbn zeta.
      destruct (triples_divisible _ Hv) as (tv & -> & _).
      destruct (triples_divisible _ Hfc) as (tf & -> & _).
      rewrite !Ok_bind. cbn zeta. rewrite Hmat, Ok_bind.
      replace (cm_of ab _) with (Ok cm) by (destruct ab; symmetry; exact Hcm).
      eexists. reflexivity. }
  destruct Hrun as (self' & Hrun). exists self'. split; [exact Hrun|].
  destruct (add_collision_object_keeps _ _ _ _ Hrun)
    as [(_ & _ & Ha & Hb & _) Hcm'].
  split; [|apply (Hcm' _ Hcm)].
  rewrite (model_of_same ab _ _ Ha Hb). exact Hf.
Qed.

(** X11. The build of a side returns when every shape the iterator delivers
    is well formed for the side's model: its label resolves, its buffers
    hold whole triples and its transform has twelve entries. *)
Theorem build_of_well_formed_shapes_returns ab self (f : ifc_file) (cm : scene) :
  model_of ab self = Ok f → cm_of ab self = Ok cm →
  (∀ shape, shape ∈ delivered (geom_iterator f) → well_formed_shape f shape) →
  ∃ self', add_collision_objects ab self = Ok self'.
Proof.
  intros Hf Hcm Hall. unfold add_collision_objects.
  rewrite Hf, Ok_bind. cbn zeta.
  destruct (initialize (geom_iterator f)); cbn [negb]; [|eauto].
  rewrite consume_for_each, skip_null_shapes.
  fold (delivered (geom_iterator f)).
  revert self cm Hf Hcm Hall. induction (delivered (geom_iterator f)) as [|shape l IH];
    intros self cm Hf Hcm Hall; cbn [for_each]; [eauto|].
  destruct (add_collision_object_total ab shape self f cm Hf Hcm)
    as (self1 & -> & Hf1 & cm1 & Hcm1); [apply Hall; left|].
  rewrite Ok_bind. apply (IH self1 cm1 Hf1 Hcm1).
  intros s Hs. apply Hall. right. exact Hs.
Qed.

Lemma add_collision_object_other ab shape self self' :
  add_collision_object ab shape self = Ok self' →
  meshes_of (other ab) self' = meshes_of (other ab) self
  ∧ ∃ new, heap self' = heap self ++ new.
Proof.
  destruct shape as [shape|]; simpl.
  - intros Hrun.
    apply bind_Ok in Hrun as (f & _ & Hrun).
    apply bind_Ok in Hrun as (element & _ & Hrun).
    apply bind_Ok in Hrun as ([mesh self1] & Hcache & Hrun).
    apply bind_Ok in Hrun as (mat & _ & Hrun).
    apply bind_Ok in Hrun as (cm & _ & Hrun). injection Hrun as <-.
    destruct (meshes_of ab self !! mesh_name shape).
    + injection Hcache as _ <-. split; [destruct ab; reflexivity|].
      exists []. rewrite app_nil_r. destruct ab; reflexivity.
    + apply bind_Ok in Hcache as (m & _ & Hcache). injection Hcache as _ <-.
      split; [destruct ab; reflexivity|]. exists [m]. destruct ab; reflexivity.
  - intros [= <-]. split; [reflexivity|]. exists []. rewrite app_nil_r. reflexivity.
Qed.

(** X12. Building one side leaves the other side's cache and scene as they
    were, and only appends to the store of meshes: every reference that
    either side held before still denotes the mesh it denoted. *)
Theorem build_leaves_other_side ab self self' :
  add_collision_objects ab self = Ok self' →
  meshes_of (other ab) self' = meshes_of (other ab) self
  ∧ cm_of (other ab) self' = cm_of (other ab) self
  ∧ (∃ new, heap self' = heap self ++ new)
  ∧ (∀ (r : nat) m, heap self !! r = Some m → heap self' !! r = Some m).
Proof.
  intros Hrun.
  assert (Hgen : meshes_of (other ab) self' = meshes_of (other ab) self
                 ∧ ∃ new, heap self' = heap self ++ new).
  { unfold add_collision_objects in Hrun.
    apply bind_Ok in Hrun as (f & _ & Hrun).
    destruct (initialize (geom_iterator f)); simpl in Hrun.
    - rewrite consume_for_each in Hrun. revert self Hrun.
      generalize (get (geom_iterator f) :: remaining (geom_iterator f)).
      intros l. induction l as [|shape l IH]; intros self Hrun; simpl in Hrun.
      + injection Hrun as <-. split; [reflexivity|]. exists [].
        rewrite app_nil_r. reflexivity.
      + apply bind_Ok in Hrun as (self1 & H1 & Hrun).
        apply add_collision_object_other in H1 as [Hm1 (new1 & Hh1)].
        destruct (IH _ Hrun) as [Hm2 (new2 & Hh2)].
        split; [congruence|]. exists (new1 ++ new2).
        rewrite Hh2, Hh1, app_assoc. reflexivity.
    - injection Hrun as <-. split; [reflexivity|]. exists [].
      rewrite app_nil_r. reflexivity. }
  destruct Hgen as [Hm (new & Hh)].
  destruct (add_collision_objects_keeps _ _ _ Hrun)
    as [(_ & _ & _ & _ & _ & _ & _ & Hcm) _].
  split; [exact Hm|]. split; [exact Hcm|]. split; [eauto|].
  intros r m Hr. rewrite Hh. apply lookup_app_l_Some, Hr.
Qed.

End Build.

(** ** The further properties on the sample model *)


Lemma null_shapes_are_skipped_witness :
  initialize (geom_iterator (Collaborators:=Sample.env) Sample.file) = true
  ∧ add_collision_objects (H:=Sample.env) side_a Sample.ready
    = for_each (λ self shape, add_collision_object side_a (Some shape) self)
        [Sample.wall; Sample.slab; Sample.door] Sample.ready.
Proof.
  split; [reflexivity|].
  exact (null_shapes_are_skipped (H:=Sample.env) side_a Sample.ready Sample.file
           eq_refl eq_refl).
Defined.

Lemma unresolved_label_is_fatal_witness :
  (penetration_depth (raw Sample.ghost) <? tolerance Sample.loaded)%float = true
  ∧ by_guid Sample.model_a "ghost" = Raise RuntimeError
  ∧ clash_contact Sample.loaded Sample.ghost = Raise RuntimeError.
Proof.
  split; [reflexivity|].
  assert (Hbad : by_guid Sample.model_a "ghost" = Raise RuntimeError)
    by (vm_compute; reflexivity).
  split; [exact Hbad|].
  apply (unresolved_label_is_fatal Sample.loaded Sample.ghost
           Sample.model_a Sample.model_b).
  - reflexivity.
  - reflexivity.
  - left. exact Hbad.
Defined.

Lemma report_keeps_first_write_order_witness :
  for_each clash_contact Sample.mixed Sample.loaded = Ok Sample.ordered
  ∧ (clashes Sample.ordered).*1 = ["wall-slab"; "slab-door"].
Proof.
  assert (Hrun : for_each clash_contact Sample.mixed Sample.loaded = Ok Sample.ordered)
    by (vm_compute; reflexivity).
  split; [exact Hrun|].
  rewrite (report_keeps_first_write_order Sample.mixed Sample.loaded Sample.ordered
             eq_refl Hrun).
  vm_compute. reflexivity.
Defined.

Lemma records_describe_elements_witness :
  for_each clash_contact Sample.around_tolerance Sample.loaded = Ok Sample.filtered
  ∧ described_by Sample.model_a Sample.model_b Sample.wall_door.
Proof.
  assert (Hrun : for_each clash_contact Sample.around_tolerance Sample.loaded
                 = Ok Sample.filtered) by (vm_compute; reflexivity).
  split; [exact Hrun|].
  apply (records_describe_elements Sample.around_tolerance Sample.loaded
           Sample.filtered Sample.model_a Sample.model_b "wall-door" Sample.wall_door).
  - reflexivity.
  - reflexivity.
  - reflexivity.
  - exact Hrun.
  - vm_compute. left.
Defined.

Lemma missing_project_is_fatal_witness :
  by_type (H:=Sample.orphan_env) Sample.orphan_file "IfcProject" = []
  ∧ main (H:=Sample.orphan_env) "a.ifc" "b.ifc" "out.json" ∅ = Raise IndexError.
Proof.
  assert (Hnone : by_type (H:=Sample.orphan_env) Sample.orphan_file "IfcProject" = [])
    by (vm_compute; reflexivity).
  split; [exact Hnone|].
  apply (missing_project_is_fatal (H:=Sample.orphan_env) "a.ifc" "b.ifc" "out.json"
           ∅ Sample.orphan_file eq_refl Hnone).
Defined.

Lemma placement_fields_witness :
  patch_placement_to_origin Sample.plain_file 1
  = Ok (<[4 := IfcCartesianPoint [0; 0; 0]%float]> Sample.plain_file)
  ∧ patch_placement_to_origin Sample.plain_file 5 = Raise AttributeError.
Proof.
  split.
  - apply (proj1 (placement_fields Sample.plain_file 1)
             "IfcSite" "here" None [] 2 3 4 [1; 2; 3]%float); reflexivity.
  - apply (proj2 (placement_fields Sample.plain_file 5)
             "IfcSite" "nowhere" None []); reflexivity.
Defined.

Lemma patch_ifc_keeps_structure_witness :
  patch_ifc (H:=Sample.env) side_a Sample.opened = Ok Sample.patched
  ∧ ∃ f', model_of side_a Sample.patched = Ok f' ∧ dom f' = dom Sample.file
          ∧ f' !! 9 = Sample.file !! 9.
Proof.
  assert (Hrun : patch_ifc (H:=Sample.env) side_a Sample.opened = Ok Sample.patched)
    by (vm_compute; reflexivity).
  split; [exact Hrun|].
  destruct (patch_ifc_keeps_structure (H:=Sample.env) side_a Sample.opened
              Sample.patched Sample.file eq_refl Hrun)
    as (f' & Hf' & Hdom & _ & Hsame).
  exists f'. split; [exact Hf'|]. split; [exact Hdom|].
  rewrite (Hsame 9 (IfcRoot "IfcBuilding" "building" (Some "Block") (Some 10) []));
    [reflexivity|reflexivity|exact I].
Defined.

Lemma find_decomposed_ifc_class_cycle_witness :
  tc (decomposes Sample.cyclic_file) 1 1
  ∧ find_decomposed_ifc_class (H:=Sample.env) 50 Sample.cyclic_file 1 "IfcSite"
    ≠ Ok [3].
Proof.
  assert (Hcycle : tc (decomposes Sample.cyclic_file) 1 1).
  { apply (tc_l _ 1 3 1); [|apply tc_once];
      apply decomposes_parts_of; vm_compute; left. }
  split; [exact Hcycle|].
  apply (find_decomposed_ifc_class_cycle (H:=Sample.env) Sample.cyclic_file "IfcSite"
           1 1 (rtc_refl _ 1) Hcycle).
Defined.

Lemma transform_rows_needs_twelve_witness :
  transform_rows [1; 2; 3]%float = Raise IndexError
  ∧ ∃ mat, transform_rows (data (matrix (transformation Sample.slab))) = Ok mat.
Proof.
  split.
  - apply (proj2 (transform_rows_needs_twelve [1; 2; 3]%float)). simpl. lia.
  - destruct (proj1 (transform_rows_needs_twelve
                       (data (matrix (transformation Sample.slab)))))
      as (mat & Hmat & _); [simpl; lia|].
    exists mat. exact Hmat.
Defined.

Lemma cached_geometry_is_not_rebuilt_witness :
  create_mesh Sample.twin = Raise IndexError
  ∧ add_collision_object side_a (Some Sample.twin) Sample.built
    = Ok (set_cm side_a (Sample.built_scene ++ [("door", 0, Sample.identity_rows)])
            Sample.built)
  ∧ add_collision_object side_a (Some Sample.twin) Sample.ready = Raise IndexError.
Proof.
  assert (Hragged : create_mesh Sample.twin = Raise IndexError)
    by (vm_compute; reflexivity).
  assert (Hdoor : by_guid Sample.file "door" = Ok 14) by (vm_compute; reflexivity).
  split; [exact Hragged|]. split.
  - apply (proj1 (cached_geometry_is_not_rebuilt side_a Sample.twin Sample.built
                    Sample.file 14 eq_refl Hdoor)); reflexivity.
  - apply (proj2 (cached_geometry_is_not_rebuilt side_a Sample.twin Sample.ready
                    Sample.file 14 eq_refl Hdoor)); [reflexivity|exact Hragged].
Defined.

Lemma build_of_well_formed_shapes_returns_witness :
  Forall (well_formed_shape Sample.file) [Sample.wall; Sample.slab; Sample.door]
  ∧ ∃ self', add_collision_objects (H:=Sample.env) side_a Sample.ready = Ok self'.
Proof.
  assert (Hall : Forall (well_formed_shape Sample.file)
                   [Sample.wall; Sample.slab; Sample.door]).
  { repeat constructor; try (eexists; vm_compute; reflexivity);
      try reflexivity; simpl; lia. }
  split; [exact Hall|].
  apply (build_of_well_formed_shapes_returns (H:=Sample.env) side_a Sample.ready
           Sample.file [] eq_refl eq_refl).
  intros shape Hin. rewrite Forall_forall in Hall. apply Hall, Hin.
Defined.

Lemma build_leaves_other_side_witness :
  add_collision_objects (H:=Sample.env) side_b Sample.ready_b = Ok Sample.both_built
  ∧ cm_of side_a Sample.both_built = Ok Sample.built_scene
  ∧ length (heap Sample.both_built) = 4.
Proof.
  assert (Hrun : add_collision_objects (H:=Sample.env) side_b Sample.ready_b
                 = Ok Sample.both_built) by (vm_compute; reflexivity).
  split; [exact Hrun|].
  destruct (build_leaves_other_side (H:=Sample.env) side_b Sample.ready_b
              Sample.both_built Hrun) as (_ & Hscene & _ & _).
  split; [|reflexivity].
  simpl in Hscene. rewrite Hscene. reflexivity.
Defined.
